(** * Contec chat bot: matcher, knowledge base and dialog state machine

    A shallow embedding of [contec_bot.py].  The bot keeps a list of
    question/answer pairs in a JSON file, answers a prompt with the stored
    answer of the closest known question ([difflib.get_close_matches] with
    [n=1], [cutoff=0.6]) and lets an authenticated trainer teach an answer
    for a prompt that had no close match.

    Conventions of the model:
    - a Python [str] is a Rocq [string]; the model covers ASCII text, on
      which [str.lower], [str.strip] and the code point order of Python are
      the functions [lower], [strip] and [String.ltb] below;
    - a Python [dict] used as a map is a [gmap], a record-like [dict] is a
      record, [None] is [None];
    - the floats computed by [difflib] are quotients [2.0 * m / n] of small
      integers; they are modelled by the exact rationals of [Q].  Rounding to
      the nearest double is monotone, and two such quotients over sequences
      shorter than [2^26] characters differ by more than one unit in the
      last place, so every comparison the code makes ([>= 0.6], tuple
      ordering) has the same outcome on the doubles as on the rationals;
    - the script runs are stated over the three states of the file that the
      script handles or reads through ([medium]); module [Disk] adds the
      states of the path in which [open] and [json.load] raise something
      else, for the behaviour of [load_knowledge_base] itself;
    - [st.session_state], the knowledge base file and what a script run
      shows on the page form the [world] threaded through [display_chat] by
      a small state-and-exit monad; the values widgets return in a run are
      read from a [run_env] record. *)

From Stdlib Require Import QArith Ascii.
From stdpp Require Import gmap gmultiset strings list sorting.

(** ** Python strings *)

Module Py.

(** [c.lower()] on an ASCII character. *)
Definition lower_char (c : ascii) : ascii :=
  let n := nat_of_ascii c in
  if (65 <=? n)%nat && (n <=? 90)%nat then ascii_of_nat (n + 32) else c.

(** [s.lower()] *)
Fixpoint lower (s : string) : string :=
  match s with
  | EmptyString => EmptyString
  | String c s' => String (lower_char c) (lower s')
  end.

(** [s.lstrip()], [s.rstrip()], [s.strip()]: ASCII white space removed. *)
Fixpoint lstrip (s : string) : string :=
  match s with
  | String c s' => if Ascii.is_space c then lstrip s' else s
  | EmptyString => EmptyString
  end.

Fixpoint rstrip (s : string) : string :=
  match s with
  | EmptyString => EmptyString
  | String c s' =>
      match rstrip s' with
      | EmptyString => if Ascii.is_space c then EmptyString else String c EmptyString
      | r => String c r
      end
  end.

Definition strip (s : string) : string := rstrip (lstrip s).

(** Truth value of a string: [bool(s)]. *)
Definition truthy (s : string) : bool :=
  match s with EmptyString => false | _ => true end.

(** [a[i]] for an index in range. *)
Definition item (a : list ascii) (i : nat) : ascii := nth i a Ascii.zero.

(** [enumerate(b)] *)
Definition enumerate {A} (l : list A) : list (nat * A) :=
  zip (seq 0 (length l)) l.

End Py.

(** ** difflib: SequenceMatcher and get_close_matches *)

Module Difflib.
Import Py.

(** [Match(a, b, size)] *)
Definition Match : Type := nat * nat * nat.

Definition size_of (x : Match) : nat := x.2.

(** The attributes of a [SequenceMatcher] that the ratio methods read.
    The matcher is built with [isjunk=None] and [autojunk=True]. *)
Record SequenceMatcher := mkSM {
  sm_a : list ascii;
  sm_b : list ascii;
  b2j : gmap ascii (list nat);
  bjunk : gset ascii;
  bpopular : gset ascii
}.

(** [_calculate_ratio(matches, length)] *)
Definition _calculate_ratio (matches len : nat) : Q :=
  match len with
  | O => 1
  | S _ => Qmake (2 * Z.of_nat matches) (Pos.of_nat len)
  end.

(** [indices = b2j.setdefault(elt, []); indices.append(i)] *)
Definition chain_step (m : gmap ascii (list nat)) (ie : nat * ascii)
  : gmap ascii (list nat) :=
  <[ie.2 := default [] (m !! ie.2) ++ [ie.1]]> m.

(** [__chain_b]: index the positions of every character of [b]; with no
    junk predicate the junk set stays empty; in a sequence of 200 or more
    characters, those that occur more than [n // 100 + 1] times are
    popular and lose their entry. *)
Definition chain_b (a b : list ascii) : SequenceMatcher :=
  let full := foldl chain_step ∅ (enumerate b) in
  let n := length b in
  let popular : gset ascii :=
    if (200 <=? n)%nat
    then dom (filter (λ kv : ascii * list nat, n / 100 + 1 < length kv.2) full)
    else ∅ in
  mkSM a b (filter (λ kv : ascii * list nat, kv.1 ∉ popular) full) ∅ popular.

Definition set_seq2 (s : SequenceMatcher) (b : list ascii) : SequenceMatcher :=
  chain_b (sm_a s) b.

Definition set_seq1 (s : SequenceMatcher) (a : list ascii) : SequenceMatcher :=
  mkSM a (sm_b s) (b2j s) (bjunk s) (bpopular s).

(** [SequenceMatcher()]: both sequences empty. *)
Definition new_matcher : SequenceMatcher := chain_b [] [].

Definition isbjunk (s : SequenceMatcher) (c : ascii) : bool :=
  bool_decide (c ∈ bjunk s).

(** State of the search in [find_longest_match]. *)
Record best := mkBest { besti : nat; bestj : nat; bestsize : nat }.

(** The loop [for j in b2j.get(a[i], nothing)], with its [continue] and
    [break].  Indices are naturals, so [j2len.get(j-1, 0)] at [j = 0]
    (key [-1], never present) is written out as [0]. *)
Fixpoint scan_row (i blo bhi : nat) (j2len : gmap nat nat) (js : list nat)
    (bst : best) (newj2len : gmap nat nat) : best * gmap nat nat :=
  match js with
  | [] => (bst, newj2len)
  | j :: js' =>
      if (j <? blo)%nat then scan_row i blo bhi j2len js' bst newj2len
      else if (bhi <=? j)%nat then (bst, newj2len)
      else
        let k := match j with
                 | O => 0
                 | S j' => default 0 (j2len !! j')
                 end + 1 in
        let bst' := if (bestsize bst <? k)%nat
                    then mkBest (i + 1 - k) (j + 1 - k) k else bst in
        scan_row i blo bhi j2len js' bst' (<[j := k]> newj2len)
  end.

(** One turn of [for i in range(alo, ahi)]. *)
Definition scan_step (s : SequenceMatcher) (blo bhi : nat)
    (st : best * gmap nat nat) (i : nat) : best * gmap nat nat :=
  scan_row i blo bhi st.2 (default [] (b2j s !! item (sm_a s) i)) st.1 ∅.

(** [while besti > alo and bestj > blo and junk(b[bestj-1]) == want and
    a[besti-1] == b[bestj-1]]: grow the block to the left.  Every turn
    lowers [besti], so the loop is a recursion on it. *)
Fixpoint extend_left (s : SequenceMatcher) (want : bool) (alo blo : nat)
    (bi bj bs : nat) : best :=
  match bi, bj with
  | S bi', S bj' =>
      if (alo <? bi)%nat && (blo <? bj)%nat
         && eqb (isbjunk s (item (sm_b s) bj')) want
         && Ascii.eqb (item (sm_a s) bi') (item (sm_b s) bj')
      then extend_left s want alo blo bi' bj' (bs + 1)
      else mkBest bi bj bs
  | _, _ => mkBest bi bj bs
  end.

(** [while besti+bestsize < ahi and bestj+bestsize < bhi and ...]: grow
    the block to the right; [gap] is [ahi - (besti + bestsize)], which
    every turn lowers by one. *)
Fixpoint extend_right (s : SequenceMatcher) (want : bool) (bhi : nat)
    (gap : nat) (bi bj bs : nat) : best :=
  match gap with
  | O => mkBest bi bj bs
  | S gap' =>
      if (bj + bs <? bhi)%nat
         && eqb (isbjunk s (item (sm_b s) (bj + bs))) want
         && Ascii.eqb (item (sm_a s) (bi + bs)) (item (sm_b s) (bj + bs))
      then extend_right s want bhi gap' bi bj (bs + 1)
      else mkBest bi bj bs
  end.

Definition extend (s : SequenceMatcher) (want : bool) (alo ahi blo bhi : nat)
    (x : best) : best :=
  let l := extend_left s want alo blo (besti x) (bestj x) (bestsize x) in
  extend_right s want bhi (ahi - (besti l + bestsize l))
    (besti l) (bestj l) (bestsize l).

(** [find_longest_match(alo, ahi, blo, bhi)] *)
Definition find_longest_match (s : SequenceMatcher) (alo ahi blo bhi : nat)
  : Match :=
  let scanned :=
    (foldl (scan_step s blo bhi) (mkBest alo blo 0, ∅) (seq alo (ahi - alo))).1 in
  let x := extend s false alo ahi blo bhi scanned in
  let y := extend s true alo ahi blo bhi x in
  (besti y, bestj y, bestsize y).

Definition range4 : Type := nat * nat * nat * nat.

(** One turn of [while queue:] in [get_matching_blocks]; the queue is a
    Python list used as a stack, its last element is the head here. *)
Definition blocks_step (s : SequenceMatcher) (r : range4)
    (queue : list range4) (blocks : list Match) : list range4 * list Match :=
  let '(alo, ahi, blo, bhi) := r in
  let '(i, j, k) := find_longest_match s alo ahi blo bhi in
  match k with
  | O => (queue, blocks)
  | S _ =>
      let q1 := if (alo <? i)%nat && (blo <? j)%nat
                then (alo, i, blo, j) :: queue else queue in
      let q2 := if (i + k <? ahi)%nat && (j + k <? bhi)%nat
                then (i + k, ahi, j + k, bhi) :: q1 else q1 in
      (q2, blocks ++ [(i, j, k)])
  end.

(** The [while queue:] loop, bounded by [fuel] turns; [None] when the fuel
    runs out before the queue is empty. *)
Fixpoint blocks_loop (s : SequenceMatcher) (fuel : nat)
    (queue : list range4) (blocks : list Match) : option (list Match) :=
  match queue with
  | [] => Some blocks
  | r :: queue' =>
      match fuel with
      | O => None
      | S fuel' =>
          let '(q, bl) := blocks_step s r queue' blocks in
          blocks_loop s fuel' q bl
      end
  end.

(** Order of the tuples in [matching_blocks.sort()]. *)
Definition match_le (x y : Match) : Prop :=
  let '(i1, j1, k1) := x in
  let '(i2, j2, k2) := y in
  i1 < i2 ∨ (i1 = i2 ∧ (j1 < j2 ∨ (j1 = j2 ∧ k1 ≤ k2))).

Global Instance match_le_dec x y : Decision (match_le x y).
Proof. destruct x as [[??]?], y as [[??]?]; simpl; apply _. Defined.

(** The loop that collapses adjacent blocks. *)
Definition merge_step (st : Match * list Match) (x : Match)
  : Match * list Match :=
  let '((i1, j1, k1), non_adjacent) := st in
  let '(i2, j2, k2) := x in
  if bool_decide (i1 + k1 = i2) && bool_decide (j1 + k1 = j2)
  then ((i1, j1, k1 + k2), non_adjacent)
  else ((i2, j2, k2),
        match k1 with
        | O => non_adjacent
        | S _ => non_adjacent ++ [(i1, j1, k1)]
        end).

(** Turns that empty any queue whose ranges lie in [a]. *)
Definition blocks_fuel (s : SequenceMatcher) : nat := 2 * length (sm_a s) + 1.

(** [get_matching_blocks()] *)
Definition get_matching_blocks (s : SequenceMatcher) : list Match :=
  let la := length (sm_a s) in
  let lb := length (sm_b s) in
  let matching_blocks :=
    default [] (blocks_loop s (blocks_fuel s) [(0, la, 0, lb)] []) in
  let sorted := merge_sort match_le matching_blocks in
  let '((i1, j1, k1), non_adjacent) := foldl merge_step ((0, 0, 0), []) sorted in
  let non_adjacent :=
    match k1 with
    | O => non_adjacent
    | S _ => non_adjacent ++ [(i1, j1, k1)]
    end in
  non_adjacent ++ [(la, lb, 0)].

(** [sum(triple[-1] for triple in ...)] *)
Definition sum_sizes (l : list Match) : nat := foldr (λ x n, size_of x + n) 0 l.

(** [ratio()] *)
Definition ratio (s : SequenceMatcher) : Q :=
  _calculate_ratio (sum_sizes (get_matching_blocks s))
    (length (sm_a s) + length (sm_b s)).

(** [fullbcount[elt] = fullbcount.get(elt, 0) + 1] *)
Definition count_step (m : gmap ascii Z) (elt : ascii) : gmap ascii Z :=
  <[elt := (default 0 (m !! elt) + 1)%Z]> m.

Definition fullbcount (s : SequenceMatcher) : gmap ascii Z :=
  foldl count_step ∅ (sm_b s).

(** One turn of [for elt in self.a] in [quick_ratio]. *)
Definition avail_step (full : gmap ascii Z) (st : gmap ascii Z * nat)
    (elt : ascii) : gmap ascii Z * nat :=
  let '(avail, matches) := st in
  let numb := match avail !! elt with
              | Some n => n
              | None => default 0%Z (full !! elt)
              end in
  (<[elt := (numb - 1)%Z]> avail,
   if (0 <? numb)%Z then matches + 1 else matches).

Definition quick_matches (s : SequenceMatcher) : nat :=
  (foldl (avail_step (fullbcount s)) (∅, 0) (sm_a s)).2.

(** [quick_ratio()] *)
Definition quick_ratio (s : SequenceMatcher) : Q :=
  _calculate_ratio (quick_matches s) (length (sm_a s) + length (sm_b s)).

(** [real_quick_ratio()] *)
Definition real_quick_ratio (s : SequenceMatcher) : Q :=
  let la := length (sm_a s) in
  let lb := length (sm_b s) in
  _calculate_ratio (la `min` lb) (la + lb).

(** [x >= cutoff] on scores. *)
Definition ge_cutoff (x cutoff : Q) : bool := Qle_bool cutoff x.

(** Python's [>] on the tuples [(score, x)]: the scores decide, and equal
    scores leave the decision to the code point order of the strings. *)
Definition tuple_gt (x y : Q * string) : bool :=
  match (x.1 ?= y.1)%Q with
  | Gt => true
  | Lt => false
  | Eq => String.ltb y.2 x.2
  end.

(** [max(it, default=sentinel)]: the first of the greatest items. *)
Definition py_max (l : list (Q * string)) : option (Q * string) :=
  match l with
  | [] => None
  | x :: l' => Some (foldl (λ m y, if tuple_gt y m then y else m) x l')
  end.

(** [heapq.nlargest(1, result)]: the short cut for [n == 1]. *)
Definition nlargest1 (result : list (Q * string)) : list (Q * string) :=
  match py_max result with
  | None => []
  | Some r => [r]
  end.

(** The matcher after [s.set_seq2(word)] and [s.set_seq1(x)]. *)
Definition matcher (word x : string) : SequenceMatcher :=
  set_seq1 (set_seq2 new_matcher (String.list_ascii_of_string word))
    (String.list_ascii_of_string x).

(** The loop body of [get_close_matches]. *)
Definition close_step (word : string) (cutoff : Q)
    (result : list (Q * string)) (x : string) : list (Q * string) :=
  let s := matcher word x in
  if ge_cutoff (real_quick_ratio s) cutoff
     && ge_cutoff (quick_ratio s) cutoff
     && ge_cutoff (ratio s) cutoff
  then result ++ [(ratio s, x)]
  else result.

(** [get_close_matches(word, possibilities, n=1, cutoff)] *)
Definition get_close_matches (word : string) (possibilities : list string)
    (cutoff : Q) : list string :=
  let result := foldl (close_step word cutoff) [] possibilities in
  (λ sx : Q * string, sx.2) <$> nlargest1 result.

End Difflib.

(** ** The bot: knowledge base, session state and the script run *)

Module Bot.
Import Py Difflib.

(** An item of [knowledge_base["questions"]]. *)
Record entry := mkEntry { question : string; answer : string }.

(** The dictionary [{"questions": [...]}], by its only key. *)
Definition knowledge_base : Type := list entry.

(** [knowledge_base.json] on disk: no such file, a file that is not a JSON
    document, or the document of a knowledge base. *)
Inductive medium :=
| Absent
| Unparseable
| Stored (kb : knowledge_base).

Inductive exn := FileNotFoundError | JSONDecodeError | OSError.

(** How the exercise ends when [save_knowledge_base] opens the file for
    writing: [open(path, "w")] fails, or it truncates the file and the
    dump then completes, or it truncates the file and the dump fails
    before the document is complete. *)
Inductive write_outcome := OpenFails | WriteCompletes | WriteFailsPartway.

Inductive role := user | assistant.

(** [{"role": ..., "content": ...}]; the content is what the code passes,
    which for an answer is the result of [get_answer], [None] included. *)
Record message := mkMessage { msg_role : role; content : option string }.

(** The keys of [st.session_state].  The key [authenticated], absent until
    [check_password] first runs, is read with default [False] and set to
    [False] when absent, so absent and [false] are one state here. *)
Record session_state := mkSession {
  chat_active : bool;
  messages : list message;
  awaiting_answer : bool;
  current_question : string;
  first_interaction : bool;
  authenticated : bool
}.

(** What the widgets and the environment give to one run of the script:
    the widgets' return values, the secret [TRAINER_PASSWORD] when it is
    configured, and the fate of a write to disk. *)
Record run_env := mkEnv {
  logout_clicked : bool;
  chat_input : option string;
  trainer_password : option string;
  password_input : string;
  authenticate_clicked : bool;
  new_answer : string;
  submit : bool;
  cancel : bool;
  disk_write : write_outcome
}.

(** What a run reads and changes: the session, the file, the errors shown
    with [st.error], and whether the form [teach_form] was put on the
    page. *)
Record world := mkWorld {
  session : session_state;
  file : medium;
  errors : list string;
  form_shown : bool
}.

(** How a run of the script ends before its last line: [st.rerun()], the
    [return] of the quit guard, or an exception nobody catches. *)
Inductive exit := Rerun | Return | Raise (e : exn).

(** Computations of the script: a state monad over [world] with exits. *)
Definition M (A : Type) : Type := world → (A + exit) * world.

Definition ret {A} (x : A) : M A := λ w, (inl x, w).

Definition bind {A B} (m : M A) (k : A → M B) : M B :=
  λ w, match m w with
       | (inl x, w') => k x w'
       | (inr e, w') => (inr e, w')
       end.

Definition leave {A} (e : exit) : M A := λ w, (inr e, w).

Definition get_session : M session_state := λ w, (inl (session w), w).

Definition modify_session (f : session_state → session_state) : M unit :=
  λ w, (inl (), mkWorld (f (session w)) (file w) (errors w) (form_shown w)).

(** [try: m except: h] *)
Definition try_except {A} (m : M A) (h : exn → M A) : M A :=
  λ w, match m w with
       | (inr (Raise e), w') => h e w'
       | r => r
       end.

(** [st.error(text)] *)
Definition st_error (text : string) : M unit :=
  λ w, (inl (), mkWorld (session w) (file w) (errors w ++ [text]) (form_shown w)).

(** [with st.form("teach_form"):] puts the form on the page. *)
Definition st_form : M unit :=
  λ w, (inl (), mkWorld (session w) (file w) (errors w) true).

Definition when (b : bool) (m : M unit) : M unit := if b then m else ret ().

Global Instance M_ret : MRet M := @ret.
Global Instance M_bind : MBind M := λ A B k m, bind m k.

(** *** The functions of the script *)

(** [with open(file_path, 'r') as file: return json.load(file)] *)
Definition read_json : M knowledge_base :=
  λ w, match file w with
       | Absent => (inr (Raise FileNotFoundError), w)
       | Unparseable => (inr (Raise JSONDecodeError), w)
       | Stored kb => (inl kb, w)
       end.

Definition load_knowledge_base : M knowledge_base :=
  try_except read_json (λ e,
    match e with
    | FileNotFoundError => mret []
    | JSONDecodeError =>
        st_error "Error reading the knowledge base. Starting fresh.";;
        mret []
    | OSError => leave (Raise OSError)
    end).

(** [with open(file_path, "w") as file: json.dump(data, file, indent=2)].
    Opening with mode ["w"] empties the file before a byte is written, and
    no proper prefix of the document of a dictionary is a JSON document. *)
Definition save_knowledge_base (env : run_env) (data : knowledge_base) : M unit :=
  λ w, match disk_write env with
       | OpenFails => (inr (Raise OSError), w)
       | WriteCompletes =>
           (inl (), mkWorld (session w) (Stored data) (errors w) (form_shown w))
       | WriteFailsPartway =>
           (inr (Raise OSError),
            mkWorld (session w) Unparseable (errors w) (form_shown w))
       end.

Definition cutoff : Q := 6 # 10.

Definition find_best_match (user_question : string) (questions : list string)
  : option string :=
  let matches := get_close_matches user_question questions cutoff in
  match matches with
  | [] => None
  | m :: _ => Some m
  end.

Fixpoint get_answer (q : string) (kb : knowledge_base) : option string :=
  match kb with
  | [] => None
  | e :: kb' =>
      if String.eqb (lower (question e)) (lower q)
      then Some (answer e)
      else get_answer q kb'
  end.

Definition set_authenticated (b : bool) (s : session_state) : session_state :=
  mkSession (chat_active s) (messages s) (awaiting_answer s)
    (current_question s) (first_interaction s) b.

Definition set_current_question (q : string) (s : session_state) : session_state :=
  mkSession (chat_active s) (messages s) (awaiting_answer s)
    q (first_interaction s) (authenticated s).

Definition set_chat_active (b : bool) (s : session_state) : session_state :=
  mkSession b (messages s) (awaiting_answer s)
    (current_question s) (first_interaction s) (authenticated s).

Definition set_awaiting_answer (b : bool) (s : session_state) : session_state :=
  mkSession (chat_active s) (messages s) b
    (current_question s) (first_interaction s) (authenticated s).

Definition set_first_interaction (b : bool) (s : session_state) : session_state :=
  mkSession (chat_active s) (messages s) (awaiting_answer s)
    (current_question s) b (authenticated s).

(** [st.session_state.messages.append({"role": r, "content": c})] *)
Definition append_message (r : role) (c : option string)
    (s : session_state) : session_state :=
  mkSession (chat_active s) (messages s ++ [mkMessage r c]) (awaiting_answer s)
    (current_question s) (first_interaction s) (authenticated s).

Definition check_password (env : run_env) : M bool :=
  s ← get_session;
  if authenticated s then mret true
  else
    match trainer_password env with
    | None =>
        st_error "Password not configured. Please set TRAINER_PASSWORD in secrets.";;
        mret false
    | Some correct_password =>
        (if authenticate_clicked env
         then if String.eqb (password_input env) correct_password
              then modify_session (set_authenticated true);; leave Rerun
              else st_error "Incorrect password"
         else mret ());;
        mret false
    end.

Definition farewell : string :=
  "Goodbye! 👋 Please refresh the page to start a new conversation.".

Definition unknown_reply : string :=
  "I don't know the answer. Would you like to train me? (Authenticated users only)".

Definition learned_reply (q : string) : string :=
  "Thank you! I've learned: '" +:+ q +:+ "'".

Definition continue_reply : string := "Okay, let's continue our conversation.".

(** The session a first run creates. *)
Definition fresh_session : session_state :=
  mkSession true [] false "" true false.

(** The part of [display_chat] under [if prompt := st.chat_input(...)]. *)
Definition handle_prompt (prompt : string) (kb : knowledge_base) : M unit :=
  let questions := question <$> kb in
  modify_session (set_first_interaction false);;
  when (String.eqb (lower prompt) "quit")
    (modify_session (append_message user (Some prompt));;
     modify_session (append_message assistant (Some farewell));;
     modify_session (set_chat_active false);;
     leave Rerun);;
  modify_session (append_message user (Some prompt));;
  s ← get_session;
  when (negb (awaiting_answer s))
    (match find_best_match prompt questions with
     | Some best_match =>
         if truthy best_match
         then modify_session (append_message assistant (get_answer best_match kb))
         else modify_session (append_message assistant (Some unknown_reply));;
              modify_session (set_current_question prompt)
     | None =>
         modify_session (append_message assistant (Some unknown_reply));;
         modify_session (set_current_question prompt)
     end;;
     leave Rerun).

(** The part of [display_chat] under [with st.form("teach_form"):]. *)
Definition teach_form (env : run_env) (kb : knowledge_base) : M unit :=
  st_form;;
  s ← get_session;
  when (submit env && truthy (new_answer env))
    (save_knowledge_base env (kb ++ [mkEntry (current_question s) (new_answer env)]);;
     modify_session (append_message assistant (Some (learned_reply (current_question s))));;
     modify_session (set_awaiting_answer false);;
     modify_session (set_current_question "");;
     leave Rerun);;
  when (cancel env)
    (modify_session (append_message assistant (Some continue_reply));;
     modify_session (set_awaiting_answer false);;
     modify_session (set_current_question "");;
     leave Rerun).

(** The body of [display_chat] once the session keys exist. *)
Definition display_chat_body (env : run_env) : M unit :=
  s ← get_session;
  when (authenticated s && logout_clicked env)
    (modify_session (set_authenticated false);;
     modify_session (set_current_question "");;
     leave Rerun);;
  s ← get_session;
  when (negb (chat_active s)) (leave Return);;
  kb ← load_knowledge_base;
  match chat_input env with
  | Some prompt => when (truthy prompt) (handle_prompt prompt kb)
  | None => mret ()
  end;;
  s ← get_session;
  if truthy (current_question s)
  then ok ← check_password env; when ok (teach_form env kb)
  else mret ().

(** How a run ended. *)
Inductive ending := Finished | Left (e : exit).

(** One run of the script: [display_chat()] on the session of the browser
    tab ([None] before the first run), the file on disk and the values of
    the widgets.  The page is drawn anew, so it starts with no error and
    no form. *)
Definition display_chat (env : run_env) (sess : option session_state)
    (f : medium) : ending * world :=
  let s0 := default fresh_session sess in
  match display_chat_body env (mkWorld s0 f [] false) with
  | (inl _, w) => (Finished, w)
  | (inr e, w) => (Left e, w)
  end.

(** A run in which no widget fires: what [st.rerun()] starts. *)
Definition idle (env : run_env) : run_env :=
  mkEnv false None (trainer_password env) (password_input env) false
    (new_answer env) false false (disk_write env).

(** *** The session as the specification reads it *)

Inductive phase := Active | AwaitingTraining | Ended.

Definition phase_of (s : session_state) : phase :=
  if negb (chat_active s) then Ended
  else if truthy (current_question s) then AwaitingTraining
  else Active.

(** [pendingQuestion]: set when [current_question] is not empty. *)
Definition pending_question (s : session_state) : option string :=
  if truthy (current_question s) then Some (current_question s) else None.

(** The knowledge base a run works on, whatever the state of the file. *)
Definition contents (f : medium) : knowledge_base :=
  match f with
  | Stored kb => kb
  | _ => []
  end.

End Bot.

(** ** The path of the knowledge base in any state *)

Module Disk.

(** What [open(file_path, 'r')] and [json.load] meet at the path: one of the
    three states of [Bot.medium] (no file, or a file that the process reads
    as text), a directory, a file the process may not read, or a file whose
    bytes are not text in the encoding [open] uses. *)
Inductive path_state :=
| Readable (f : Bot.medium)
| IsDirectory
| NoPermission
| NotText.

(** The exceptions [open] and [json.load] raise on those. *)
Inductive exn :=
| FileNotFoundError
| JSONDecodeError
| IsADirectoryError
| PermissionError
| UnicodeDecodeError.

(** [with open(file_path, 'r') as file: return json.load(file)]: [open]
    raises on a missing file, on a directory and on a file it may not read;
    [file.read()] inside [json.load] raises on bytes that do not decode, and
    the parser on text that is not a JSON document. *)
Definition read_json (p : path_state) : Bot.knowledge_base + exn :=
  match p with
  | Readable Bot.Absent => inr FileNotFoundError
  | Readable Bot.Unparseable => inr JSONDecodeError
  | Readable (Bot.Stored kb) => inl kb
  | IsDirectory => inr IsADirectoryError
  | NoPermission => inr PermissionError
  | NotText => inr UnicodeDecodeError
  end.

(** [load_knowledge_base(file_path)]: the knowledge base returned with the
    errors shown by [st.error], or the exception that leaves the function.
    The [except] clauses catch [FileNotFoundError] and
    [json.JSONDecodeError]; [IsADirectoryError] and [PermissionError] are
    not subclasses of the first, and [UnicodeDecodeError] is not one of the
    second. *)
Definition load_knowledge_base (p : path_state)
  : (Bot.knowledge_base * list string) + exn :=
  match read_json p with
  | inl kb => inl (kb, [])
  | inr FileNotFoundError => inl ([], [])
  | inr JSONDecodeError =>
      inl ([], ["Error reading the knowledge base. Starting fresh."])
  | inr e => inr e
  end.

End Disk.

Import Py Difflib Bot.

(** ** Vocabulary of the statements about the matcher *)

(** Multiset of the characters of a sequence. *)
Definition chars (l : list ascii) : gmultiset ascii := list_to_set_disj l.

(** [l[lo:hi]] *)
Definition slice (l : list ascii) (lo hi : nat) : list ascii :=
  take (hi - lo) (drop lo l).

(** What [quick_ratio] reads for a character: its entry in [avail] when
    there is one, its count in [b] otherwise. *)
Definition available (full avail : gmap ascii Z) (c : ascii) : Z :=
  match avail !! c with
  | Some n => n
  | None => default 0%Z (full !! c)
  end.

(** Every position an index lists for a character holds that character. *)
Definition index_sound (b : list ascii) (m : gmap ascii (list nat)) : Prop :=
  ∀ c js j, m !! c = Some js → j ∈ js → b !! j = Some c.

(** The invariant [__chain_b] establishes for [b2j]. *)
Definition b2j_sound (s : SequenceMatcher) : Prop := index_sound (sm_b s) (b2j s).

(** A block [(i, j, k)] inside the ranges [alo..ahi] of [a] and [blo..bhi]
    of [b] whose two sides hold the same characters. *)
Definition block_ok (s : SequenceMatcher) (alo ahi blo bhi : nat) (i j k : nat) : Prop :=
  alo ≤ i ∧ i + k ≤ ahi ∧ blo ≤ j ∧ j + k ≤ bhi ∧
  ∀ t, t < k → item (sm_a s) (i + t) = item (sm_b s) (j + t).

(** The same for the state of the search. *)
Definition best_ok (s : SequenceMatcher) (alo ahi blo bhi : nat) (x : best) : Prop :=
  block_ok s alo ahi blo bhi (besti x) (bestj x) (bestsize x).

(** Invariant of [j2len] before row [i]: an entry [k] at [j] is a run of
    [k] equal characters ending at [a[i-1]] and [b[j]]. *)
Definition j2len_ok (s : SequenceMatcher) (alo blo bhi i : nat) (m : gmap nat nat) : Prop :=
  ∀ j k, m !! j = Some k →
    1 ≤ k ∧ alo + k ≤ i ∧ blo + k ≤ j + 1 ∧ j < bhi ∧
    ∀ t, t < k → item (sm_a s) (i - k + t) = item (sm_b s) (j + 1 - k + t).

(** A queued range lies in the two sequences. *)
Definition range_ok (s : SequenceMatcher) (r : range4) : Prop :=
  let '(alo, ahi, blo, bhi) := r in
  alo ≤ ahi ∧ ahi ≤ length (sm_a s) ∧ blo ≤ bhi ∧ bhi ≤ length (sm_b s).

(** Characters the two slices of a range have in common, with multiplicity:
    no set of blocks inside the range matches more. *)
Definition cap (s : SequenceMatcher) (r : range4) : nat :=
  let '(alo, ahi, blo, bhi) := r in
  size (chars (slice (sm_a s) alo ahi) ∩ chars (slice (sm_b s) blo bhi)).

(** The same for a whole queue. *)
Definition caps (s : SequenceMatcher) (q : list range4) : nat :=
  foldr (λ r n, cap s r + n) 0 q.

(** Turns a range can still cost. *)
Definition weight (r : range4) : nat :=
  let '(alo, ahi, _, _) := r in 2 * (ahi - alo) + 1.

(** The same for a whole queue. *)
Definition weights (q : list range4) : nat := foldr (λ r n, weight r + n) 0 q.

(** Similarity score of a candidate [x] to [word]. *)
Definition score (word x : string) : Q := ratio (matcher word x).

(** [m] is a greatest tuple for [y]: no lower score, and at equal scores no
    lower string. *)
Definition dominates (m y : Q * string) : Prop :=
  (y.1 <= m.1)%Q ∧ ((y.1 == m.1)%Q → String.ltb m.2 y.2 = false).

(** ** Vocabulary of the further properties *)

(** What the blocks inside a range can cover of its two slices together:
    all of both when the slices are equal, and one character less when they
    differ. *)
Definition pot (s : SequenceMatcher) (r : range4) : nat :=
  let '(alo, ahi, blo, bhi) := r in
  (ahi - alo) + (bhi - blo)
  - (if decide (slice (sm_a s) alo ahi = slice (sm_b s) blo bhi) then 0 else 1).

Definition pots (s : SequenceMatcher) (q : list range4) : nat :=
  foldr (λ r n, pot s r + n) 0 q.

(** The positions an index lists for a character are in increasing order
    and below [t]. *)
Definition index_sorted (m : gmap ascii (list nat)) (t : nat) : Prop :=
  ∀ c js, m !! c = Some js → StronglySorted lt js ∧ Forall (λ j, j < t) js.

(** An index lists every position below [t]. *)
Definition index_complete (b : list ascii) (m : gmap ascii (list nat)) (t : nat) : Prop :=
  ∀ j c, j < t → b !! j = Some c → ∃ js, m !! c = Some js ∧ j ∈ js.

(** What [__chain_b] leaves in [b2j] for a character it kept: all its
    positions in [b], in increasing order. *)
Definition b2j_exact (s : SequenceMatcher) : Prop :=
  ∀ c js, b2j s !! c = Some js →
    StronglySorted lt js ∧ ∀ j, sm_b s !! j = Some c → j ∈ js.

(** Length of the run of characters with an entry in [b2j] that ends just
    before position [t] of [b]. *)
Fixpoint run_before (s : SequenceMatcher) (t : nat) : nat :=
  match t with
  | O => 0
  | S t' =>
      if bool_decide (is_Some (b2j s !! item (sm_b s) t'))
      then S (run_before s t') else 0
  end.

(** Invariant of the search of [find_longest_match] over equal sequences,
    before row [t]: the best block lies on the diagonal and is at least as
    long as every run of indexed characters seen so far, and no entry of
    [j2len] exceeds the runs that end in its row and in its column. *)
Definition diag_ok (s : SequenceMatcher) (t : nat) (st : best * gmap nat nat) : Prop :=
  besti st.1 = bestj st.1
  ∧ (∀ i, i ≤ t → run_before s i ≤ bestsize st.1)
  ∧ (∀ j k, st.2 !! j = Some k → k ≤ run_before s t ∧ k ≤ run_before s (S j))
  ∧ (∀ t', t = S t' → run_before s t ≤ default 0 (st.2 !! t')).

(** The session and the file after the runs that a sequence of interactions
    starts, each run on the session and the file the run before left. *)
Fixpoint runs (envs : list run_env) (s : session_state) (f : medium)
    : session_state * medium :=
  match envs with
  | [] => (s, f)
  | env :: envs' =>
      let w := (display_chat env (Some s) f).2 in
      runs envs' (session w) (file w)
  end.

(** No question text is stored twice, and the pending question is not a
    stored one. *)
Definition no_repeats (s : session_state) (f : medium) : Prop :=
  NoDup (question <$> contents f)
  ∧ (truthy (current_question s) = true →
     current_question s ∉ question <$> contents f).

(** Every user message of a transcript is followed by an assistant
    message. *)
Fixpoint answered (ms : list message) : bool :=
  match ms with
  | [] => true
  | m :: ms' =>
      match msg_role m, ms' with
      | user, m' :: _ =>
          match msg_role m' with
          | assistant => answered ms'
          | user => false
          end
      | user, [] => false
      | assistant, _ => answered ms'
      end
  end.

(** [input_class] of [display_chat]: the class of the container of the chat
    input, ["centered-input"] if [first_interaction] is set and the
    transcript is empty, ["bottom-input"] otherwise. *)
Definition input_class (s : session_state) : string :=
  if first_interaction s && match messages s with [] => true | _ => false end
  then "centered-input" else "bottom-input".

(** A block inside the two sequences whose two sides hold the same
    characters. *)
Definition block_valid (s : SequenceMatcher) (x : Match) : Prop :=
  let '(i, j, k) := x in
  block_ok s 0 (length (sm_a s)) 0 (length (sm_b s)) i j k.

(** * Properties of the script run *)

(** Unfolds the monad of the script down to functions on worlds. *)
Ltac run_script :=
  unfold display_chat, display_chat_body, handle_prompt, teach_form,
    check_password, load_knowledge_base, save_knowledge_base, read_json,
    try_except, when, modify_session, get_session, st_error, st_form, leave,
    mbind, mret, M_bind, M_ret, bind, ret in *;
  simpl in *.

(** The biconditional of the specification between the pending question and
    the phase. *)
Definition coherent (s : session_state) : Prop :=
  is_Some (pending_question s) ↔ phase_of s = AwaitingTraining.

Lemma coherent_alt (s : session_state) :
  coherent s ↔ (chat_active s = false → current_question s = "").
Proof.
  unfold coherent, pending_question, phase_of.
  destruct (chat_active s), (current_question s); simpl; split; intros H.
  - done.
  - split; [intros [? ?]; done | done].
  - done.
  - split; [done | intros _; by eexists].
  - done.
  - split; [intros [? ?]; done | done].
  - destruct H as [H _]. discriminate H. by eexists.
  - by specialize (H eq_refl).
Qed.

Section Runs.
Variable env : run_env.

(** A run on an ended session stops at the quit guard. *)
Lemma ended_run (s : session_state) (f : medium) :
  chat_active s = false →
  authenticated s && logout_clicked env = false →
  display_chat env (Some s) f = (Left Return, mkWorld s f [] false).
Proof.
  intros Hc Hl. run_script. rewrite Hl. simpl. rewrite Hc. reflexivity.
Qed.

(** A click on Logout in an ended session keeps the transcript, the phase
    and the file. *)
Lemma ended_logout (s : session_state) (f : medium) :
  chat_active s = false →
  let w := (display_chat env (Some s) f).2 in
  messages (session w) = messages s ∧ phase_of (session w) = Ended
  ∧ file w = f.
Proof.
  destruct s as [ca ms aw cq fi au]. simpl. intros ->. run_script.
  destruct (au && logout_clicked env); simpl; done.
Qed.

(** What a run that reaches the prompt does with the text ["quit"] in any
    casing. *)
Lemma quit_run (s : session_state) (f : medium) (p : string) :
  chat_active s = true →
  authenticated s && logout_clicked env = false →
  chat_input env = Some p →
  lower p = "quit" →
  ∃ errs,
    display_chat env (Some s) f =
      (Left Rerun,
       mkWorld
         (mkSession false
            (messages s ++ [mkMessage user (Some p);
                            mkMessage assistant (Some farewell)])
            (awaiting_answer s) (current_question s) false (authenticated s))
         f errs false).
Proof.
  intros Hc Hl Hp Hq. run_script. rewrite Hl. simpl. rewrite Hc. simpl.
  assert (Ht : truthy p = true) by (by destruct p).
  destruct f; simpl; rewrite Hp, Ht; simpl; rewrite Hq; simpl;
    unfold set_chat_active, append_message, set_first_interaction; simpl;
    rewrite <- app_assoc; simpl; eauto.
Qed.

(** What a run does when an authenticated trainer submits a non-empty
    answer for the pending question. *)
Lemma training_commit_run (s : session_state) (f : medium) :
  chat_active s = true →
  truthy (current_question s) = true →
  authenticated s = true →
  logout_clicked env = false →
  chat_input env = None →
  submit env = true →
  truthy (new_answer env) = true →
  ∃ errs,
    display_chat env (Some s) f =
      let kb := contents f ++ [mkEntry (current_question s) (new_answer env)] in
      match disk_write env with
      | OpenFails => (Left (Raise OSError), mkWorld s f errs true)
      | WriteFailsPartway => (Left (Raise OSError), mkWorld s Unparseable errs true)
      | WriteCompletes =>
          (Left Rerun,
           mkWorld
             (mkSession true
                (messages s
                 ++ [mkMessage assistant (Some (learned_reply (current_question s)))])
                false "" (first_interaction s) true)
             (Stored kb) errs true)
      end.
Proof.
  destruct s as [ca ms aw cq fi au]. simpl.
  intros -> Hcq -> Hl Hp Hs Ha. run_script.
  rewrite Hl, Hp, Hs, Ha. simpl.
  destruct f; simpl; rewrite Hcq; simpl;
    destruct (disk_write env); simpl; eauto.
Qed.

(** What a run does when an authenticated trainer cancels. *)
Lemma training_cancel_run (s : session_state) (f : medium) :
  chat_active s = true →
  truthy (current_question s) = true →
  authenticated s = true →
  logout_clicked env = false →
  chat_input env = None →
  submit env && truthy (new_answer env) = false →
  cancel env = true →
  ∃ errs,
    display_chat env (Some s) f =
      (Left Rerun,
       mkWorld
         (mkSession true
            (messages s ++ [mkMessage assistant (Some continue_reply)])
            false "" (first_interaction s) true)
         f errs true).
Proof.
  destruct s as [ca ms aw cq fi au]. simpl.
  intros -> Hcq -> Hl Hp Hs Hc. run_script.
  rewrite Hl, Hp, Hs, Hc. simpl.
  destruct f; simpl; rewrite Hcq; simpl; eauto.
Qed.

(** A session is ended after a run only if it was ended before, with its
    pending question kept or cleared, or if the run took the quit branch,
    which keeps the pending question. *)
Lemma ended_after_run (sess : option session_state) (f : medium) :
  let s := default fresh_session sess in
  let s' := session (display_chat env sess f).2 in
  chat_active s' = false →
  (chat_active s = false
   ∧ (current_question s' = current_question s ∨ current_question s' = ""))
  ∨ (∃ p, chat_input env = Some p ∧ lower p = "quit"
          ∧ current_question s' = current_question s).
Proof.
  destruct (default fresh_session sess) as [ca ms aw cq fi au] eqn:Hs.
  simpl. run_script. rewrite Hs. simpl.
  destruct (au && logout_clicked env); simpl.
  { intros ->. left. auto. }
  destruct ca; simpl; [|intros _; left; auto].
  destruct (chat_input env) as [p|] eqn:Hp.
  - destruct (truthy p) eqn:Htp, (String.eqb (lower p) "quit") eqn:Hq;
      [apply String.eqb_eq in Hq | |  |];
      destruct f; simpl; rewrite ?Htp; simpl; rewrite ?Hq; simpl;
      try (intros _; right; exists p; by auto);
      repeat (case_match; simpl in *; simplify_eq; try done).
  - destruct f; simpl;
      repeat (case_match; simpl in *; simplify_eq; try done).
Qed.

End Runs.

(** ** Termination keyword *)

(** C4, as amended: for every utterance delivered in phase Active whose
    lowercase form is ["quit"] (the text is lowercased, not trimmed), the
    run appends the user message and the farewell message to the transcript
    and the phase becomes Ended. *)
Theorem quit_ends_session (env : run_env) (s : session_state) (f : medium)
    (p : string) :
  phase_of s = Active →
  logout_clicked env = false →
  chat_input env = Some p →
  lower p = "quit" →
  let w := (display_chat env (Some s) f).2 in
  messages (session w)
    = messages s ++ [mkMessage user (Some p); mkMessage assistant (Some farewell)]
  ∧ phase_of (session w) = Ended.
Proof.
  intros Hph Hl Hp Hq.
  assert (Hc : chat_active s = true).
  { unfold phase_of in Hph. by destruct (chat_active s). }
  destruct (quit_run env s f p) as [errs Hr]; try done.
  { rewrite Hl. apply andb_false_r. }
  simpl. rewrite Hr. done.
Qed.

Lemma quit_ends_session_witness :
  let env := mkEnv false (Some "Quit") None "" false "" false false WriteCompletes in
  let w := (display_chat env (Some fresh_session) Absent).2 in
  messages (session w)
    = [mkMessage user (Some "Quit"); mkMessage assistant (Some farewell)]
  ∧ phase_of (session w) = Ended.
Proof.
  apply (quit_ends_session
           (mkEnv false (Some "Quit") None "" false "" false false WriteCompletes)
           fresh_session Absent "Quit"); reflexivity.
Defined.

(** C4, as the specification states it, fails: [" quit"] is the keyword
    after trimming and lowercasing, yet the run treats it as a question with
    no match and the session awaits training instead of ending. *)
Lemma padded_quit_is_a_question :
  let p := " quit" in
  let env := mkEnv false (Some p) None "" false "" false false WriteCompletes in
  let w := (display_chat env (Some fresh_session) Absent).2 in
  lower (strip p) = "quit"
  ∧ phase_of fresh_session = Active
  ∧ phase_of (session w) = AwaitingTraining
  ∧ messages (session w)
      = [mkMessage user (Some p); mkMessage assistant (Some unknown_reply)].
Proof. vm_compute. done. Qed.

(** ** The ended session *)

(** C5, as amended: once the phase is Ended, no chat input, password entry
    or training form is accepted.  In every run the transcript, the file
    and the phase stay as they were and the form is not put on the page;
    the run stops at the quit guard with the whole session unchanged,
    unless an authenticated trainer clicks Logout in the sidebar, and then
    the run clears the pending question and the authentication and nothing
    else. *)
Theorem ended_accepts_no_input (env : run_env) (s : session_state) (f : medium) :
  phase_of s = Ended →
  let r := display_chat env (Some s) f in
  messages (session r.2) = messages s
  ∧ phase_of (session r.2) = Ended
  ∧ file r.2 = f
  ∧ form_shown r.2 = false
  ∧ (if authenticated s && logout_clicked env
     then r.1 = Left Rerun
          ∧ session r.2 = set_current_question "" (set_authenticated false s)
          ∧ pending_question (session r.2) = None
     else r.1 = Left Return
          ∧ session r.2 = s
          ∧ pending_question (session r.2) = pending_question s).
Proof.
  intros Hph.
  assert (Hc : chat_active s = false).
  { unfold phase_of in Hph. destruct (chat_active s); [|done].
    simpl in Hph. by destruct (truthy _). }
  destruct (authenticated s && logout_clicked env) eqn:Hl.
  - destruct s as [ca ms aw cq fi au]. simpl in *. subst ca.
    run_script. rewrite Hl. done.
  - simpl. rewrite ended_run by done. done.
Qed.

Lemma ended_accepts_no_input_witness :
  let s := mkSession false [mkMessage user (Some "quit")] false "" false false in
  let env := mkEnv false (Some "hello") (Some "pw") "pw" true "answer" true true
               WriteCompletes in
  let f := Stored [mkEntry "hello" "Hi"] in
  let r := display_chat env (Some s) f in
  messages (session r.2) = messages s
  ∧ phase_of (session r.2) = Ended
  ∧ file r.2 = f
  ∧ form_shown r.2 = false
  ∧ (if authenticated s && logout_clicked env
     then r.1 = Left Rerun
          ∧ session r.2 = set_current_question "" (set_authenticated false s)
          ∧ pending_question (session r.2) = None
     else r.1 = Left Return
          ∧ session r.2 = s
          ∧ pending_question (session r.2) = pending_question s).
Proof.
  apply (ended_accepts_no_input
           (mkEnv false (Some "hello") (Some "pw") "pw" true "answer" true true
              WriteCompletes)
           (mkSession false [mkMessage user (Some "quit")] false "" false false)
           (Stored [mkEntry "hello" "Hi"])); reflexivity.
Defined.

(** C5, as the specification states it, fails: a prompt without a match
    leaves a pending question, the trainer authenticates, ["quit"] ends the
    session with the question still pending, and a click on Logout, the one
    widget the ended page still offers, then clears the pending question. *)
Lemma logout_in_ended_clears_pending_question :
  let say p := mkEnv false (Some p) (Some "pw") "" false "" false false WriteCompletes in
  let login := mkEnv false None (Some "pw") "pw" true "" false false WriteCompletes in
  let logout := mkEnv true None (Some "pw") "" false "" false false WriteCompletes in
  let w1 := (display_chat (say "hello") None Absent).2 in
  let w2 := (display_chat login (Some (session w1)) (file w1)).2 in
  let w3 := (display_chat (say "quit") (Some (session w2)) (file w2)).2 in
  let w4 := (display_chat logout (Some (session w3)) (file w3)).2 in
  phase_of (session w3) = Ended
  ∧ pending_question (session w3) = Some "hello"
  ∧ phase_of (session w4) = Ended
  ∧ pending_question (session w4) = None.
Proof. vm_compute. done. Qed.

(** ** Training without authorization *)

(** C8: in phase AwaitingTraining, a run in which the actor is not
    authorized and the training form is submitted or cancelled (with any
    answer text, any password entry) changes neither the phase nor the
    pending question nor the transcript nor the file, and the form is not
    put on the page. *)
Theorem unauthorized_training_changes_nothing (env : run_env)
    (s : session_state) (f : medium) :
  phase_of s = AwaitingTraining →
  authenticated s = false →
  chat_input env = None →
  let w := (display_chat env (Some s) f).2 in
  phase_of (session w) = AwaitingTraining
  ∧ pending_question (session w) = pending_question s
  ∧ messages (session w) = messages s
  ∧ file w = f
  ∧ form_shown w = false.
Proof.
  destruct s as [ca ms aw cq fi au]. unfold phase_of, pending_question. simpl.
  intros Hph -> Hp.
  destruct ca; [|done]. simpl in Hph.
  destruct (truthy cq) eqn:Hcq; [|done].
  run_script. rewrite Hp.
  destruct f; simpl; rewrite Hcq; simpl;
    (destruct (trainer_password env) as [pw|]; simpl; [|by rewrite ?Hcq]);
    (destruct (authenticate_clicked env); simpl; [|by rewrite ?Hcq]);
    destruct (String.eqb (password_input env) pw); simpl; by rewrite ?Hcq.
Qed.

Lemma unauthorized_training_changes_nothing_witness :
  let s := mkSession true [] false "hello" false false in
  let env := mkEnv false None (Some "pw") "guess" true "Hi there!" true true
               WriteCompletes in
  let w := (display_chat env (Some s) Absent).2 in
  phase_of (session w) = AwaitingTraining
  ∧ pending_question (session w) = pending_question s
  ∧ messages (session w) = messages s
  ∧ file w = Absent
  ∧ form_shown w = false.
Proof.
  apply (unauthorized_training_changes_nothing
           (mkEnv false None (Some "pw") "guess" true "Hi there!" true true
              WriteCompletes)
           (mkSession true [] false "hello" false false) Absent); reflexivity.
Defined.

(** ** Pending question and phase *)

(** C1, as amended: the pending question is set if and only if the phase is
    AwaitingTraining in the session a first run creates and after every run
    that starts from a session with that property (answering, entering
    Ended from Active, completing or cancelling training, logging out),
    provided the run is not a ["quit"] typed while a question is pending. *)
Theorem pending_iff_awaiting_training (env : run_env)
    (sess : option session_state) (f : medium) :
  (∀ s, sess = Some s → coherent s) →
  (∀ p, chat_input env = Some p → lower p = "quit" →
        pending_question (default fresh_session sess) = None) →
  coherent (session (display_chat env sess f).2).
Proof.
  intros Hco Hquit. apply coherent_alt. intros Hc.
  assert (H0 : chat_active (default fresh_session sess) = false →
               current_question (default fresh_session sess) = "").
  { destruct sess as [s|]; simpl; [|done]. by apply coherent_alt, Hco. }
  destruct (ended_after_run env sess f Hc) as [[Hca [-> | ->]] | (p & Hp & Hq & ->)];
    auto.
  specialize (Hquit p Hp Hq). unfold pending_question in Hquit.
  by destruct (current_question (default fresh_session sess)).
Qed.

Lemma pending_iff_awaiting_training_witness :
  coherent
    (session
       (display_chat
          (mkEnv false None (Some "pw") "" false "Hi there!" true false WriteCompletes)
          (Some (mkSession true [] false "hello" false true)) Absent).2).
Proof.
  apply (pending_iff_awaiting_training
           (mkEnv false None (Some "pw") "" false "Hi there!" true false WriteCompletes)
           (Some (mkSession true [] false "hello" false true)) Absent).
  - intros s [= <-]. apply coherent_alt. simpl. discriminate.
  - simpl. discriminate.
Defined.

(** C1, as the specification states it, fails: after the prompt ["hello"]
    found no match, the prompt ["quit"] ends the session and the pending
    question is still set, in phase Ended. *)
Lemma quit_while_pending_keeps_question :
  let say p := mkEnv false (Some p) None "" false "" false false WriteCompletes in
  let w1 := (display_chat (say "hello") None Absent).2 in
  let w2 := (display_chat (say "quit") (Some (session w1)) (file w1)).2 in
  phase_of (session w1) = AwaitingTraining
  ∧ phase_of (session w2) = Ended
  ∧ pending_question (session w2) = Some "hello".
Proof. vm_compute. done. Qed.

(** ** The knowledge base file *)

(** On the three states of [medium] the function of the script run is the
    one of [Disk]: it returns, and shows the same errors. *)
Lemma load_on_medium (w : world) :
  ∃ kb errs,
    Disk.load_knowledge_base (Disk.Readable (file w)) = inl (kb, errs)
    ∧ load_knowledge_base w
      = (inl kb, mkWorld (session w) (file w) (errors w ++ errs) (form_shown w)).
Proof.
  destruct w as [s f es fs]. run_script.
  destruct f; simpl; eexists _, _; (split; [reflexivity|]);
    rewrite ?app_nil_r; reflexivity.
Qed.

(** C6 fails on the code: [load_knowledge_base] raises past its boundary.
    With no file it returns the empty knowledge base and reports nothing,
    and on text that is not JSON it reports the error and returns the empty
    knowledge base, as the claim says; but a file whose bytes do not decode
    as text, a file the process may not read and a directory at the path
    make it raise [UnicodeDecodeError], [PermissionError] and
    [IsADirectoryError], which no [except] clause catches. *)
Theorem load_raises_past_its_boundary :
  Disk.load_knowledge_base Disk.NotText = inr Disk.UnicodeDecodeError
  ∧ Disk.load_knowledge_base Disk.NoPermission = inr Disk.PermissionError
  ∧ Disk.load_knowledge_base Disk.IsDirectory = inr Disk.IsADirectoryError
  ∧ ∀ f : medium,
      Disk.load_knowledge_base (Disk.Readable f)
      = match f with
        | Absent => inl ([], [])
        | Unparseable =>
            inl ([], ["Error reading the knowledge base. Starting fresh."])
        | Stored kb => inl (kb, [])
        end.
Proof.
  split; [done|]. split; [done|]. split; [done|]. by intros [| |kb].
Qed.

(** C7, as amended: a training commit overwrites the file in place.  A write
    that completes leaves the full knowledge base, the new pair last, in the
    file; a write that fails after the file was opened leaves a file that
    does not parse, whatever it held before; in both failures the exception
    leaves the session exactly as it was before the run. *)
Theorem save_overwrites_in_place (env : run_env) (s : session_state) (f : medium) :
  phase_of s = AwaitingTraining →
  authenticated s = true →
  logout_clicked env = false →
  chat_input env = None →
  submit env = true →
  truthy (new_answer env) = true →
  let r := display_chat env (Some s) f in
  match disk_write env with
  | WriteCompletes =>
      r.1 = Left Rerun
      ∧ file r.2 = Stored (contents f ++ [mkEntry (current_question s) (new_answer env)])
  | WriteFailsPartway =>
      r.1 = Left (Raise OSError) ∧ file r.2 = Unparseable ∧ session r.2 = s
  | OpenFails =>
      r.1 = Left (Raise OSError) ∧ file r.2 = f ∧ session r.2 = s
  end.
Proof.
  intros Hph Hau Hl Hp Hs Ha.
  assert (Hc : chat_active s = true ∧ truthy (current_question s) = true).
  { unfold phase_of in Hph. destruct (chat_active s); [|done]. simpl in Hph.
    by destruct (truthy _). }
  destruct Hc as [Hc Hq].
  destruct (training_commit_run env s f) as [errs Hr]; try done.
  simpl in *. rewrite Hr. by destruct (disk_write env).
Qed.

Lemma save_overwrites_in_place_witness :
  let s := mkSession true [] false "bye" false true in
  let f := Stored [mkEntry "hello" "Hi there!"] in
  let r := display_chat
             (mkEnv false None (Some "pw") "" false "See you" true false
                WriteFailsPartway) (Some s) f in
  r.1 = Left (Raise OSError) ∧ file r.2 = Unparseable ∧ session r.2 = s.
Proof.
  apply (save_overwrites_in_place
           (mkEnv false None (Some "pw") "" false "See you" true false
              WriteFailsPartway)
           (mkSession true [] false "bye" false true)
           (Stored [mkEntry "hello" "Hi there!"])); reflexivity.
Defined.

(** C7, as the specification states it, fails: the file held a valid
    knowledge base, the write of a training commit fails partway, and the
    file no longer parses; the next run starts from the empty knowledge
    base and reports the error. *)
Lemma failed_write_loses_stored_pairs :
  let s := mkSession true [] false "bye" false true in
  let f := Stored [mkEntry "hello" "Hi there!"] in
  let r := display_chat
             (mkEnv false None (Some "pw") "" false "See you" true false
                WriteFailsPartway) (Some s) f in
  let again := load_knowledge_base r.2 in
  r.1 = Left (Raise OSError)
  ∧ file r.2 = Unparseable
  ∧ again.1 = inl []
  ∧ errors again.2 = ["Error reading the knowledge base. Starting fresh."].
Proof. vm_compute. done. Qed.

(** ** Answers of trained questions *)

Lemma get_answer_app (q : string) (kb : knowledge_base) (e : entry) :
  get_answer q (kb ++ [e])
  = match get_answer q kb with
    | Some a => Some a
    | None => if String.eqb (lower (question e)) (lower q)
              then Some (answer e) else None
    end.
Proof.
  induction kb as [|e' kb IH]; simpl; [done|].
  by destruct (String.eqb (lower (question e')) (lower q)).
Qed.

Lemma get_answer_None (q : string) (kb : knowledge_base) :
  (∀ e, e ∈ kb → lower (question e) ≠ lower q) → get_answer q kb = None.
Proof.
  induction kb as [|e kb IH]; simpl; intros H; [done|].
  destruct (String.eqb_spec (lower (question e)) (lower q)) as [Heq|_].
  - exfalso. apply (H e); [left | done].
  - apply IH. intros e' He'. apply H. by right.
Qed.

(** C3, as amended: after an authorized training commit of the pending
    question [q] with a non-empty answer [a], looking up any text equal to
    [q] up to casing returns [a], provided the knowledge base held no entry
    whose question equals [q] up to casing (the lookup returns the answer of
    the first such entry, and the commit appends). *)
Theorem committed_answer_is_found (env : run_env) (s : session_state)
    (f : medium) (q' : string) :
  phase_of s = AwaitingTraining →
  authenticated s = true →
  logout_clicked env = false →
  chat_input env = None →
  submit env = true →
  truthy (new_answer env) = true →
  disk_write env = WriteCompletes →
  lower q' = lower (current_question s) →
  (∀ e, e ∈ contents f → lower (question e) ≠ lower (current_question s)) →
  let kb' := contents f ++ [mkEntry (current_question s) (new_answer env)] in
  file (display_chat env (Some s) f).2 = Stored kb'
  ∧ get_answer q' kb' = Some (new_answer env).
Proof.
  intros Hph Hau Hl Hp Hs Ha Hw Hq Hnew.
  assert (Hc : chat_active s = true ∧ truthy (current_question s) = true).
  { unfold phase_of in Hph. destruct (chat_active s); [|done]. simpl in Hph.
    by destruct (truthy _). }
  destruct Hc as [Hc Hcq].
  destruct (training_commit_run env s f) as [errs Hr]; try done.
  simpl in *. rewrite Hr, Hw. simpl. split; [done|].
  rewrite get_answer_app, get_answer_None; simpl.
  - rewrite Hq. by rewrite String.eqb_refl.
  - intros e He. rewrite Hq. by apply Hnew.
Qed.

Lemma committed_answer_is_found_witness :
  let kb' := [mkEntry "What is Contec?" "A company."; mkEntry "hello" "Hi there!"] in
  file (display_chat
          (mkEnv false None (Some "pw") "" false "Hi there!" true false WriteCompletes)
          (Some (mkSession true [] false "hello" false true))
          (Stored [mkEntry "What is Contec?" "A company."])).2 = Stored kb'
  ∧ get_answer "HeLLo" kb' = Some "Hi there!".
Proof.
  apply (committed_answer_is_found
           (mkEnv false None (Some "pw") "" false "Hi there!" true false WriteCompletes)
           (mkSession true [] false "hello" false true)
           (Stored [mkEntry "What is Contec?" "A company."]) "HeLLo");
    try reflexivity.
  simpl. intros e He. apply list_elem_of_singleton in He. subst e.
  vm_compute. discriminate.
Defined.

(** C3, as the specification states it, fails: the file holds an answer for
    ["HELLO"], the prompt ["hello"] finds no match and becomes the pending
    question, the trainer commits a new answer for it, and the lookup of
    ["hello"] still returns the older answer. *)
Lemma older_entry_shadows_committed_answer :
  let f := Stored [mkEntry "HELLO" "old"] in
  let w1 := (display_chat
               (mkEnv false (Some "hello") (Some "pw") "" false "" false false
                  WriteCompletes)
               (Some (mkSession true [] false "" true true)) f).2 in
  let w2 := (display_chat
               (mkEnv false None (Some "pw") "" false "new" true false WriteCompletes)
               (Some (session w1)) (file w1)).2 in
  pending_question (session w1) = Some "hello"
  ∧ file w2 = Stored [mkEntry "HELLO" "old"; mkEntry "hello" "new"]
  ∧ get_answer "hello" (contents (file w2)) = Some "old".
Proof. vm_compute. done. Qed.

(** * Properties of the matcher *)

(** ** Slices and multisets of characters *)

Lemma size_chars l : size (chars l) = length l.
Proof.
  unfold chars. induction l as [|x l IH].
  - done.
  - rewrite list_to_set_disj_cons, gmultiset_size_disj_union,
      gmultiset_size_singleton, IH. done.
Qed.

Lemma slice_split l lo mid hi :
  lo ≤ mid → mid ≤ hi → slice l lo hi = slice l lo mid ++ slice l mid hi.
Proof.
  intros H1 H2. unfold slice.
  replace (hi - lo) with ((mid - lo) + (hi - mid)) by lia.
  rewrite <- take_take_drop, drop_drop.
  by replace (lo + (mid - lo)) with mid by lia.
Qed.

Lemma length_slice l lo hi : hi ≤ length l → length (slice l lo hi) = hi - lo.
Proof. intros H. unfold slice. rewrite length_take, length_drop. lia. Qed.

Lemma slice_full l : slice l 0 (length l) = l.
Proof. unfold slice. rewrite drop_0, Nat.sub_0_r. apply firstn_all. Qed.

Lemma slice_lookup l lo hi t :
  hi ≤ length l → t < hi - lo → slice l lo hi !! t = Some (item l (lo + t)).
Proof.
  intros H1 H2. unfold slice, item.
  rewrite lookup_take_lt by done. rewrite lookup_drop.
  destruct (nth_lookup_or_length l (lo + t) zero) as [->|]; [done | lia].
Qed.

Lemma size_inter_split (x1 x2 x3 y1 y3 : list ascii) :
  size (chars x1 ∩ chars y1) + length x2 + size (chars x3 ∩ chars y3)
  ≤ size (chars (x1 ++ x2 ++ x3) ∩ chars (y1 ++ x2 ++ y3)).
Proof.
  rewrite <- (size_chars x2), <- !gmultiset_size_disj_union.
  apply gmultiset_subseteq_size. unfold chars.
  rewrite !list_to_set_disj_app. multiset_solver.
Qed.

Lemma size_inter_add (P B : gmultiset ascii) (x : ascii) :
  size ((P ⊎ {[+ x +]}) ∩ B)
  = size (P ∩ B) + (if decide (multiplicity x P < multiplicity x B) then 1 else 0).
Proof.
  case_decide.
  - replace ((P ⊎ {[+ x +]}) ∩ B) with ((P ∩ B) ⊎ {[+ x +]}).
    + by rewrite gmultiset_size_disj_union, gmultiset_size_singleton.
    + apply gmultiset_eq. intros c.
      rewrite !multiplicity_intersection, !multiplicity_disj_union,
        !multiplicity_intersection, multiplicity_singleton.
      case_decide; subst; lia.
  - replace ((P ⊎ {[+ x +]}) ∩ B) with (P ∩ B); [lia|].
    apply gmultiset_eq. intros c.
    rewrite !multiplicity_intersection, !multiplicity_disj_union,
      multiplicity_singleton.
    case_decide; subst; lia.
Qed.

Lemma count_fold (l : list ascii) (m : gmap ascii Z) (c : ascii) :
  default 0%Z (foldl count_step m l !! c)
  = (default 0 (m !! c) + Z.of_nat (multiplicity c (chars l)))%Z.
Proof.
  revert m. induction l as [|x l IH]; intros m; simpl.
  - unfold chars. simpl. rewrite multiplicity_empty. lia.
  - rewrite IH. unfold chars, count_step.
    rewrite list_to_set_disj_cons, multiplicity_disj_union, multiplicity_singleton.
    rewrite lookup_insert. repeat case_decide; subst; simpl; try done; lia.
Qed.

Lemma fullbcount_multiplicity (s : SequenceMatcher) (c : ascii) :
  default 0%Z (fullbcount s !! c) = Z.of_nat (multiplicity c (chars (sm_b s))).
Proof. unfold fullbcount. rewrite count_fold, lookup_empty. simpl. lia. Qed.

Lemma avail_fold (full : gmap ascii Z) (B : gmultiset ascii) (l : list ascii) :
  ∀ (avail : gmap ascii Z) (matches : nat) (P : gmultiset ascii),
    (∀ c, available full avail c
          = (Z.of_nat (multiplicity c B) - Z.of_nat (multiplicity c P))%Z) →
    matches = size (P ∩ B) →
    (foldl (avail_step full) (avail, matches) l).2 = size ((P ⊎ chars l) ∩ B).
Proof.
  induction l as [|x l IH]; intros avail matches P Hav Hm; simpl.
  - unfold chars. simpl. by rewrite (right_id ∅ (⊎)).
  - unfold chars. rewrite list_to_set_disj_cons.
    rewrite (assoc (⊎)). apply IH.
    + intros c. unfold available. rewrite lookup_insert.
      specialize (Hav c). unfold available in Hav.
      rewrite multiplicity_disj_union, multiplicity_singleton.
      case_decide as Hc.
      * subst c. case_decide; [|done]. simpl.
        pose proof (Hav) as Hx. destruct (avail !! x); lia.
      * case_decide; [by subst|]. lia.
    + rewrite size_inter_add. subst matches.
      specialize (Hav x). unfold available in Hav.
      unfold avail_step; simpl.
      destruct (avail !! x) as [n|]; simpl in *;
        [destruct (Z.ltb_spec 0 n)
        |destruct (Z.ltb_spec 0 (default 0%Z (full !! x)))];
        case_decide; simpl; lia.
Qed.

Lemma quick_matches_size (s : SequenceMatcher) :
  quick_matches s = size (chars (sm_a s) ∩ chars (sm_b s)).
Proof.
  unfold quick_matches.
  rewrite (avail_fold _ (chars (sm_b s)) _ ∅ 0 ∅).
  - by rewrite (left_id ∅ (⊎)).
  - intros c. unfold available. rewrite lookup_empty, multiplicity_empty.
    rewrite fullbcount_multiplicity. lia.
  - replace (∅ ∩ chars (sm_b s)) with (∅ : gmultiset ascii) by multiset_solver.
    done.
Qed.

(** ** Soundness of the index [b2j] *)

Lemma chain_fold_sound (b : list ascii) (l : list (nat * ascii)) :
  ∀ m, (∀ ie, ie ∈ l → b !! ie.1 = Some ie.2) →
       index_sound b m → index_sound b (foldl chain_step m l).
Proof.
  induction l as [|[i e] l IH]; intros m Hl Hm; simpl; [done|].
  apply IH.
  - intros ie Hie. apply Hl. by right.
  - intros c js j. unfold chain_step. simpl.
    destruct (decide (e = c)) as [->|Hne].
    + rewrite lookup_insert_eq. intros [= <-] [Hj|Hj]%elem_of_app.
      * destruct (m !! c) as [js'|] eqn:E; simpl in Hj.
        -- by eapply Hm.
        -- by apply elem_of_nil in Hj.
      * apply list_elem_of_singleton in Hj as ->.
        apply (Hl (i, c)). by left.
    + rewrite lookup_insert_ne by done. apply Hm.
Qed.

Lemma enumerate_lookup (b : list ascii) (ie : nat * ascii) :
  ie ∈ enumerate b → b !! ie.1 = Some ie.2.
Proof.
  unfold enumerate. intros [k Hk]%list_elem_of_lookup.
  apply lookup_zip_with_Some in Hk as (i & e & -> & Hi & He).
  apply lookup_seq in Hi as [-> _]. done.
Qed.

Lemma chain_b_sound (a b : list ascii) : b2j_sound (chain_b a b).
Proof.
  unfold b2j_sound, chain_b. simpl.
  intros c js j [Hc _]%map_lookup_filter_Some Hj.
  revert Hc Hj. apply chain_fold_sound.
  - apply enumerate_lookup.
  - intros ???. by rewrite lookup_empty.
Qed.

Lemma matcher_sound (word x : string) : b2j_sound (matcher word x).
Proof. exact (chain_b_sound [] (String.list_ascii_of_string word)). Qed.

Lemma matcher_a word x : sm_a (matcher word x) = String.list_ascii_of_string x.
Proof. done. Qed.

Lemma matcher_b word x : sm_b (matcher word x) = String.list_ascii_of_string word.
Proof. done. Qed.

(** ** The block [find_longest_match] returns *)

Ltac same_item H :=
  etrans; [|etrans; [exact H|]]; (f_equal; lia).

Section Longest.
Variable s : SequenceMatcher.
Hypothesis Hsound : b2j_sound s.

Lemma run_length_ok alo blo bhi i j j2len :
  j2len_ok s alo blo bhi i j2len →
  alo ≤ i → blo ≤ j → j < bhi →
  item (sm_b s) j = item (sm_a s) i →
  let k := match j with O => 0 | S j' => default 0 (j2len !! j') end + 1 in
  1 ≤ k ∧ alo + k ≤ i + 1 ∧ blo + k ≤ j + 1 ∧
  ∀ t, t < k → item (sm_a s) (i + 1 - k + t) = item (sm_b s) (j + 1 - k + t).
Proof.
  intros Hm Hi Hlo Hhi Heq k.
  assert (Hlast : ∀ p t, t = p → p ≤ i → p ≤ j →
            item (sm_a s) (i + 1 - (p + 1) + t) = item (sm_b s) (j + 1 - (p + 1) + t)).
  { intros p t -> ??. symmetry in Heq. same_item Heq. }
  destruct j as [|j']; simpl in k.
  - subst k. repeat split; try lia. intros t Ht. apply (Hlast 0); lia.
  - destruct (j2len !! j') as [p|] eqn:E; simpl in k; subst k.
    + destruct (Hm _ _ E) as (H1 & H2 & H3 & H4 & H5).
      repeat split; try lia. intros t Ht.
      destruct (decide (t = p)) as [->|Hne].
      * apply Hlast; lia.
      * pose proof (H5 t ltac:(lia)) as Ht'. same_item Ht'.
    + repeat split; try lia. intros t Ht. apply (Hlast 0); lia.
Qed.

Lemma scan_row_ok alo blo bhi i j2len js :
  j2len_ok s alo blo bhi i j2len → alo ≤ i →
  (∀ j, j ∈ js → item (sm_b s) j = item (sm_a s) i) →
  ∀ bst new,
    best_ok s alo (i + 1) blo bhi bst → j2len_ok s alo blo bhi (i + 1) new →
    best_ok s alo (i + 1) blo bhi (scan_row i blo bhi j2len js bst new).1 ∧
    j2len_ok s alo blo bhi (i + 1) (scan_row i blo bhi j2len js bst new).2.
Proof.
  intros Hm Hi. induction js as [|j js IH]; intros Hjs bst new Hb Hn; simpl; [done|].
  assert (Hjs' : ∀ j, j ∈ js → item (sm_b s) j = item (sm_a s) i).
  { intros j' Hj'. apply Hjs. by right. }
  destruct (Nat.ltb_spec j blo) as [Hlo|Hlo]; [by apply IH|].
  destruct (Nat.leb_spec bhi j) as [Hhi|Hhi]; [done|].
  pose proof (run_length_ok alo blo bhi i j j2len Hm Hi Hlo Hhi
                (Hjs j ltac:(by left))) as Hk.
  simpl in Hk.
  remember (match j with O => 0 | S j' => default 0 (j2len !! j') end + 1) as k.
  destruct Hk as (H1 & H2 & H3 & H4).
  apply IH; [done| |].
  - destruct (Nat.ltb_spec (bestsize bst) k); [|done].
    unfold best_ok, block_ok. simpl. repeat split; try lia. done.
  - intros j0 k0. destruct (decide (j0 = j)) as [->|Hne].
    + rewrite lookup_insert_eq. intros [= <-].
      repeat split; try lia. done.
    + rewrite lookup_insert_ne by done. apply Hn.
Qed.

Lemma best_ok_mono alo ahi ahi' blo bhi x :
  ahi ≤ ahi' → best_ok s alo ahi blo bhi x → best_ok s alo ahi' blo bhi x.
Proof. unfold best_ok, block_ok. intros ? (?&?&?&?&?). repeat split; try lia. done. Qed.

Lemma b2j_items i j :
  j ∈ default [] (b2j s !! item (sm_a s) i) → item (sm_b s) j = item (sm_a s) i.
Proof.
  destruct (b2j s !! item (sm_a s) i) as [js|] eqn:E; simpl.
  - intros Hj. pose proof (Hsound _ _ _ E Hj) as Hb.
    unfold item. by apply nth_lookup_Some with (d := Ascii.zero) in Hb.
  - by intros ?%elem_of_nil.
Qed.

Lemma scan_ok alo blo bhi n :
  blo ≤ bhi →
  let st := foldl (scan_step s blo bhi) (mkBest alo blo 0, ∅) (seq alo n) in
  best_ok s alo (alo + n) blo bhi st.1 ∧ j2len_ok s alo blo bhi (alo + n) st.2.
Proof.
  intros Hb. cbv zeta. induction n as [|n IH].
  - simpl. split.
    + unfold best_ok, block_ok. simpl. repeat split; lia.
    + intros ??. by rewrite lookup_empty.
  - rewrite seq_S, foldl_app. simpl.
    destruct IH as [IH1 IH2]. unfold scan_step at 1 3.
    replace (alo + S n) with (alo + n + 1) by lia.
    apply scan_row_ok; try done; try lia.
    { intros j. apply b2j_items. }
    eapply best_ok_mono; [|done]. lia.
Qed.

Lemma extend_left_ok want alo ahi blo bhi bi :
  ∀ bj bs, block_ok s alo ahi blo bhi bi bj bs →
           best_ok s alo ahi blo bhi (extend_left s want alo blo bi bj bs).
Proof.
  induction bi as [|bi IH]; intros bj bs Hb; simpl; [done|].
  destruct bj as [|bj]; [done|].
  destruct (_ && _) eqn:E; [|done].
  apply andb_prop in E as [E E4]. apply andb_prop in E as [E E3].
  apply andb_prop in E as [E1 E2].
  apply Nat.ltb_lt in E1, E2. apply Ascii.eqb_eq in E4.
  apply IH. destruct Hb as (H1 & H2 & H3 & H4 & H5).
  repeat split; try lia. intros t Ht.
  destruct t as [|t].
  - same_item E4.
  - pose proof (H5 t ltac:(lia)) as Ht'. same_item Ht'.
Qed.

Lemma extend_right_ok want alo ahi blo bhi gap :
  ∀ bi bj bs, gap ≤ ahi - (bi + bs) → block_ok s alo ahi blo bhi bi bj bs →
              best_ok s alo ahi blo bhi (extend_right s want bhi gap bi bj bs).
Proof.
  induction gap as [|gap IH]; intros bi bj bs Hg Hb; simpl; [done|].
  destruct (_ && _) eqn:E; [|done].
  apply andb_prop in E as [E E3]. apply andb_prop in E as [E1 E2].
  apply Nat.ltb_lt in E1. apply Ascii.eqb_eq in E3.
  apply IH; [lia|]. destruct Hb as (H1 & H2 & H3 & H4 & H5).
  repeat split; try lia. intros t Ht.
  destruct (decide (t = bs)) as [->|Hne]; [done|].
  apply H5. lia.
Qed.

Lemma extend_ok want alo ahi blo bhi x :
  best_ok s alo ahi blo bhi x → best_ok s alo ahi blo bhi (extend s want alo ahi blo bhi x).
Proof.
  intros Hx. unfold extend. apply extend_right_ok; [done|].
  by apply extend_left_ok.
Qed.

(** The block found lies in the two ranges, and the two slices it names
    hold the same characters. *)
Lemma find_longest_match_ok alo ahi blo bhi :
  alo ≤ ahi → blo ≤ bhi →
  let '(i, j, k) := find_longest_match s alo ahi blo bhi in
  block_ok s alo ahi blo bhi i j k.
Proof.
  intros Ha Hb. unfold find_longest_match.
  do 2 apply extend_ok.
  destruct (scan_ok alo blo bhi (ahi - alo) Hb) as [H _].
  eapply best_ok_mono; [|exact H]. lia.
Qed.
End Longest.

(** ** The queue of [get_matching_blocks] *)

Lemma sum_sizes_app l1 l2 : sum_sizes (l1 ++ l2) = sum_sizes l1 + sum_sizes l2.
Proof. induction l1 as [|x l1 IH]; simpl; [done|]. unfold sum_sizes in *. simpl. lia. Qed.

Lemma block_slices s alo ahi blo bhi i j k :
  ahi ≤ length (sm_a s) → bhi ≤ length (sm_b s) →
  block_ok s alo ahi blo bhi i j k →
  slice (sm_a s) i (i + k) = slice (sm_b s) j (j + k).
Proof.
  intros Ha Hb (H1 & H2 & H3 & H4 & H5).
  apply list_eq. intros t.
  destruct (decide (t < k)) as [Ht|Ht].
  - rewrite !slice_lookup by lia. f_equal. by apply H5.
  - rewrite !lookup_ge_None_2; [done| |]; rewrite length_slice; lia.
Qed.

Lemma cap_split s alo ahi blo bhi i j k :
  range_ok s (alo, ahi, blo, bhi) →
  block_ok s alo ahi blo bhi i j k →
  cap s (alo, i, blo, j) + k + cap s (i + k, ahi, j + k, bhi) ≤ cap s (alo, ahi, blo, bhi).
Proof.
  intros (R1 & R2 & R3 & R4) Hb.
  pose proof (block_slices _ _ _ _ _ _ _ _ R2 R4 Hb) as Heq.
  destruct Hb as (H1 & H2 & H3 & H4 & H5). unfold cap.
  rewrite (slice_split (sm_a s) alo i ahi), (slice_split (sm_a s) i (i + k) ahi) by lia.
  rewrite (slice_split (sm_b s) blo j bhi), (slice_split (sm_b s) j (j + k) bhi) by lia.
  rewrite <- Heq.
  etrans; [|apply size_inter_split].
  rewrite length_slice by lia. lia.
Qed.

Lemma blocks_step_ok s r queue blocks :
  b2j_sound s → range_ok s r → Forall (range_ok s) queue →
  let '(q, bl) := blocks_step s r queue blocks in
  Forall (range_ok s) q ∧
  weights q + 1 ≤ weight r + weights queue ∧
  sum_sizes bl + caps s q ≤ sum_sizes blocks + cap s r + caps s queue.
Proof.
  intros Hs Hr Hq. destruct r as [[[alo ahi] blo] bhi].
  pose proof Hr as (R1 & R2 & R3 & R4).
  pose proof (find_longest_match_ok s Hs alo ahi blo bhi R1 R3) as Hb.
  pose proof (cap_split s alo ahi blo bhi) as Hc.
  unfold blocks_step.
  destruct (find_longest_match s alo ahi blo bhi) as [[i j] k].
  specialize (Hc i j k Hr Hb).
  destruct Hb as (H1 & H2 & H3 & H4 & H5).
  destruct k as [|k]; [simpl; repeat split; [done|lia..]|].
  rewrite sum_sizes_app.
  replace (sum_sizes [(i, j, S k)]) with (S k) by (unfold sum_sizes; simpl; lia).
  destruct (Nat.ltb_spec alo i), (Nat.ltb_spec blo j),
    (Nat.ltb_spec (i + S k) ahi), (Nat.ltb_spec (j + S k) bhi);
    simpl andb; cbv iota;
    (split; [repeat (apply Forall_cons; split; [simpl; lia|]); done|]);
    simpl; simpl in Hc; lia.
Qed.

(** With fuel for the weight of its queue the loop ends, and the blocks it
    has collected match no more characters than the ranges could hold. *)
Lemma blocks_loop_ok s fuel :
  b2j_sound s →
  ∀ queue blocks,
    Forall (range_ok s) queue → weights queue ≤ fuel →
    ∃ bl, blocks_loop s fuel queue blocks = Some bl ∧
          sum_sizes bl ≤ sum_sizes blocks + caps s queue.
Proof.
  intros Hs. induction fuel as [|fuel IH]; intros queue blocks Hq Hw.
  - destruct queue as [|[[[alo ahi] blo] bhi] queue]; simpl in *; [|lia].
    exists blocks. split; [done|lia].
  - destruct queue as [|r queue]; simpl.
    { exists blocks. split; [done|lia]. }
    apply Forall_cons in Hq as [Hr Hq].
    pose proof (blocks_step_ok s r queue blocks Hs Hr Hq) as Hstep.
    destruct (blocks_step s r queue blocks) as [q bl].
    destruct Hstep as (Hq' & Hw' & Hsum).
    destruct (IH q bl Hq') as (bl' & Hrun & Hle).
    { simpl in Hw. lia. }
    exists bl'. split; [done|]. simpl. lia.
Qed.

(** ** Sorting and collapsing keep the number of matched characters *)

Lemma sum_sizes_perm l1 l2 : l1 ≡ₚ l2 → sum_sizes l1 = sum_sizes l2.
Proof. unfold sum_sizes. induction 1; simpl; lia. Qed.

Lemma merge_fold l :
  ∀ cur na,
    size_of (foldl merge_step (cur, na) l).1 + sum_sizes (foldl merge_step (cur, na) l).2
    = size_of cur + sum_sizes na + sum_sizes l.
Proof.
  induction l as [|[[i2 j2] k2] l IH]; intros [[i1 j1] k1] na; simpl.
  - unfold sum_sizes. simpl. lia.
  - destruct (_ && _); rewrite IH.
    + unfold sum_sizes, size_of. simpl. lia.
    + destruct k1; rewrite ?sum_sizes_app; unfold sum_sizes, size_of; simpl; lia.
Qed.

Lemma get_matching_blocks_sum s :
  sum_sizes (get_matching_blocks s)
  = sum_sizes (default [] (blocks_loop s (blocks_fuel s)
                             [(0, length (sm_a s), 0, length (sm_b s))] [])).
Proof.
  unfold get_matching_blocks.
  set (bl := default [] _).
  pose proof (merge_fold (merge_sort match_le bl) (0, 0, 0) []) as Hm.
  destruct (foldl merge_step _ _) as [[[i1 j1] k1] na]. simpl in Hm.
  rewrite (sum_sizes_perm _ _ (merge_sort_Permutation match_le bl)) in Hm.
  rewrite <- Hm.
  destruct k1; rewrite !sum_sizes_app; unfold sum_sizes, size_of; simpl; lia.
Qed.

(** The characters [ratio] counts are matched one for one in the two
    strings: there are no more of them than [quick_ratio] counts. *)
Lemma matches_le_quick_matches s :
  b2j_sound s → sum_sizes (get_matching_blocks s) ≤ quick_matches s.
Proof.
  intros Hs. rewrite get_matching_blocks_sum, quick_matches_size.
  destruct (blocks_loop_ok s (blocks_fuel s) Hs
              [(0, length (sm_a s), 0, length (sm_b s))] []) as (bl & -> & Hle).
  - apply Forall_cons. split; [simpl; lia|done].
  - unfold blocks_fuel. simpl. lia.
  - simpl in *. rewrite !slice_full in Hle. lia.
Qed.

(** The turns granted by [blocks_fuel] empty the queue: for every pair of
    strings the loop of [get_matching_blocks] ends, and [ratio] is computed
    from the blocks it has collected. *)
Lemma get_matching_blocks_ends (word x : string) :
  let s := matcher word x in
  is_Some (blocks_loop s (blocks_fuel s)
             [(0, length (sm_a s), 0, length (sm_b s))] []).
Proof.
  cbv zeta. set (s := matcher word x).
  destruct (blocks_loop_ok s (blocks_fuel s) (matcher_sound word x)
              [(0, length (sm_a s), 0, length (sm_b s))] []) as (bl & -> & _).
  - apply Forall_cons. split; [simpl; lia|done].
  - unfold blocks_fuel. simpl. lia.
  - done.
Qed.

Lemma quick_matches_le_min s :
  quick_matches s ≤ length (sm_a s) `min` length (sm_b s).
Proof.
  rewrite quick_matches_size, <- !size_chars.
  apply Nat.min_glb; apply gmultiset_subseteq_size; multiset_solver.
Qed.

(** ** The three tests of [get_close_matches] *)

Lemma calculate_ratio_mono m1 m2 len :
  m1 ≤ m2 → (_calculate_ratio m1 len <= _calculate_ratio m2 len)%Q.
Proof.
  intros Hm. unfold _calculate_ratio. destruct len; [apply Qle_refl|].
  unfold Qle. simpl Qnum. simpl Qden.
  apply Z.mul_le_mono_nonneg_r; lia.
Qed.

Lemma ge_cutoff_mono x y c :
  (x <= y)%Q → ge_cutoff x c = true → ge_cutoff y c = true.
Proof.
  unfold ge_cutoff. rewrite !Qle_bool_iff. intros Hxy Hc. by eapply Qle_trans.
Qed.

Lemma ratio_le_quick_ratio s : b2j_sound s → (ratio s <= quick_ratio s)%Q.
Proof. intros Hs. apply calculate_ratio_mono. by apply matches_le_quick_matches. Qed.

Lemma quick_ratio_le_real_quick_ratio s : (quick_ratio s <= real_quick_ratio s)%Q.
Proof. apply calculate_ratio_mono, quick_matches_le_min. Qed.

(** The two cheap tests never reject a candidate the real one accepts. *)
Lemma close_step_ratio word cutoff result x :
  close_step word cutoff result x
  = if ge_cutoff (score word x) cutoff then result ++ [(score word x, x)] else result.
Proof.
  unfold close_step, score. cbv zeta.
  pose proof (ratio_le_quick_ratio _ (matcher_sound word x)) as H1.
  pose proof (quick_ratio_le_real_quick_ratio (matcher word x)) as H2.
  destruct (ge_cutoff (ratio _) cutoff) eqn:E; [|by rewrite andb_false_r].
  rewrite (ge_cutoff_mono _ _ _ H1 E).
  rewrite (ge_cutoff_mono _ _ _ (Qle_trans _ _ _ H1 H2) E). done.
Qed.

Lemma close_fold word cutoff l :
  ∀ acc, foldl (close_step word cutoff) acc l
         = acc ++ ((λ x, (score word x, x))
                     <$> filter (λ x, ge_cutoff (score word x) cutoff = true) l).
Proof.
  induction l as [|x l IH]; intros acc; simpl.
  - by rewrite app_nil_r.
  - rewrite IH, close_step_ratio, filter_cons.
    destruct (ge_cutoff (score word x) cutoff) eqn:E.
    + rewrite decide_True by done. simpl. by rewrite <- app_assoc.
    + rewrite decide_False by (by intros ?). done.
Qed.

(** ** Code point order of strings, and [max] on the tuples *)

Lemma ascii_compare_trans a b c :
  Ascii.compare a b = Lt → Ascii.compare b c = Lt → Ascii.compare a c = Lt.
Proof.
  unfold Ascii.compare. rewrite !N.compare_lt_iff. apply N.lt_trans.
Qed.

Lemma string_compare_trans x :
  ∀ y z, String.compare x y = Lt → String.compare y z = Lt → String.compare x z = Lt.
Proof.
  induction x as [|a x IH]; intros [|b y] [|c z]; simpl; try done.
  destruct (Ascii.compare a b) eqn:Eab; try done;
    destruct (Ascii.compare b c) eqn:Ebc; try done.
  - apply Ascii.compare_eq_iff in Eab, Ebc. subst.
    replace (Ascii.compare c c) with Eq; [apply IH|].
    symmetry. unfold Ascii.compare. apply N.compare_refl.
  - apply Ascii.compare_eq_iff in Eab. subst. by rewrite Ebc.
  - apply Ascii.compare_eq_iff in Ebc. subst. by rewrite Eab.
  - by rewrite (ascii_compare_trans _ _ _ Eab Ebc).
Qed.

Lemma string_ltb_irrefl x : String.ltb x x = false.
Proof.
  unfold String.ltb. pose proof (String.compare_antisym x x) as H.
  destruct (String.compare x x); simpl in H; done.
Qed.

Lemma string_ltb_trans x y z :
  String.ltb x y = true → String.ltb y z = true → String.ltb x z = true.
Proof.
  unfold String.ltb. intros Hxy Hyz.
  rewrite (string_compare_trans x y z); [done| |].
  - by destruct (String.compare x y).
  - by destruct (String.compare y z).
Qed.

Lemma dominates_refl m : dominates m m.
Proof. split; [apply Qle_refl|]. intros _. apply string_ltb_irrefl. Qed.

Lemma tuple_gt_false m y : tuple_gt y m = false → dominates m y.
Proof.
  unfold tuple_gt, dominates. destruct (Qcompare_spec y.1 m.1) as [E|E|E]; try done.
  - intros Hlt. split; [by apply Qle_lteq; right|done].
  - intros _. split; [by apply Qlt_le_weak|].
    intros E'. rewrite E' in E. by apply Qlt_irrefl in E.
Qed.

Lemma tuple_gt_true m y z : tuple_gt y m = true → dominates m z → dominates y z.
Proof.
  unfold tuple_gt, dominates. intros Hgt [Hle Htie].
  destruct (Qcompare_spec y.1 m.1) as [E|E|E]; try done.
  - split; [by rewrite E|]. intros E'. rewrite E in E'.
    destruct (String.ltb y.2 z.2) eqn:Hyz; [|done].
    rewrite <- (Htie E'). symmetry. by eapply string_ltb_trans.
  - split; [eapply Qle_trans; [done|by apply Qlt_le_weak]|].
    intros E'. rewrite E' in Hle. by apply Qle_not_lt in Hle.
Qed.

Lemma max_fold l m :
  let r := foldl (λ m y, if tuple_gt y m then y else m) m l in
  r ∈ m :: l ∧ ∀ y, y ∈ m :: l → dominates r y.
Proof.
  cbv zeta. induction l as [|y l IH] using rev_ind.
  - simpl. split; [by left|]. intros y ->%list_elem_of_singleton. apply dominates_refl.
  - rewrite foldl_app. simpl. destruct IH as [Hin Hall].
    destruct (tuple_gt y _) eqn:E.
    + split.
      * rewrite app_comm_cons, elem_of_app. right. by left.
      * intros z. rewrite app_comm_cons, elem_of_app.
        intros [Hz| ->%list_elem_of_singleton]; [|apply dominates_refl].
        eapply tuple_gt_true; [done|]. by apply Hall.
    + split.
      * rewrite app_comm_cons, elem_of_app. by left.
      * intros z. rewrite app_comm_cons, elem_of_app.
        intros [Hz| ->%list_elem_of_singleton]; [by apply Hall|].
        by apply tuple_gt_false.
Qed.

Lemma py_max_spec l :
  match py_max l with
  | Some r => r ∈ l ∧ ∀ y, y ∈ l → dominates r y
  | None => l = []
  end.
Proof. destruct l as [|x l]; simpl; [done|]. apply max_fold. Qed.

(** ** What [find_best_match] returns *)

Lemma find_best_match_cases (q : string) (qs : list string) :
  match find_best_match q qs with
  | Some m =>
      m ∈ qs ∧ ge_cutoff (score q m) cutoff = true ∧
      ∀ x, x ∈ qs → ge_cutoff (score q x) cutoff = true →
           dominates (score q m, m) (score q x, x)
  | None => ∀ x, x ∈ qs → ge_cutoff (score q x) cutoff = false
  end.
Proof.
  unfold find_best_match, get_close_matches, nlargest1. cbv zeta.
  rewrite close_fold, app_nil_l.
  set (keep := filter _ qs).
  pose proof (py_max_spec ((λ x, (score q x, x)) <$> keep)) as Hmax.
  destruct (py_max _) as [[sc m]|]; simpl.
  - destruct Hmax as [Hin Hall].
    apply list_elem_of_fmap in Hin as (m' & [= -> ->] & Hm).
    apply list_elem_of_filter in Hm as [Hc Hm].
    split; [done|]. split; [done|].
    intros x Hx Hcx. apply Hall.
    apply list_elem_of_fmap. exists x. split; [done|].
    by apply list_elem_of_filter.
  - apply fmap_nil_inv in Hmax. intros x Hx.
    destruct (ge_cutoff (score q x) cutoff) eqn:E; [|done].
    assert (x ∈ keep) as Hk by (by apply list_elem_of_filter).
    rewrite Hmax in Hk. by apply elem_of_nil in Hk.
Qed.

(** C2: [find_best_match] returns a known question whose score is the
    highest of the sequence and at least the threshold 0.6, and returns
    nothing exactly when every known question scores below 0.6. *)
Theorem best_match_is_highest_above_threshold (q : string) (qs : list string) :
  (∀ m, find_best_match q qs = Some m →
        m ∈ qs ∧ (cutoff <= score q m)%Q ∧
        ∀ x, x ∈ qs → (score q x <= score q m)%Q)
  ∧ (find_best_match q qs = None ↔ ∀ x, x ∈ qs → (score q x < cutoff)%Q).
Proof.
  pose proof (find_best_match_cases q qs) as H.
  assert (Hlt : ∀ x, ge_cutoff (score q x) cutoff = false → (score q x < cutoff)%Q).
  { intros x Hx. apply Qnot_le_lt. intros Hle.
    apply Qle_bool_iff in Hle. unfold ge_cutoff in Hx. congruence. }
  destruct (find_best_match q qs) as [m|].
  - destruct H as (Hin & Hc & Hmax). split.
    + intros ? [= <-]. split; [done|].
      apply Qle_bool_iff in Hc. split; [done|]. intros x Hx.
      destruct (ge_cutoff (score q x) cutoff) eqn:E.
      * apply (Hmax x Hx E).
      * apply Qlt_le_weak. eapply Qlt_le_trans; [by apply Hlt|done].
    + split; [done|]. intros Hall. exfalso.
      apply Qle_bool_iff in Hc. apply (Qle_not_lt _ _ Hc). by apply Hall.
  - split; [done|]. split; [|done]. intros _ x Hx. by apply Hlt, H.
Qed.

Lemma string_ltb_total x y : String.ltb x y = false → x ≠ y → String.ltb y x = true.
Proof.
  unfold String.ltb. rewrite (String.compare_antisym y x).
  destruct (String.compare x y) eqn:E; try done.
  by apply String.compare_eq_iff in E.
Qed.

(** C9, as amended: among the known questions that tie for the highest
    score, [find_best_match] returns the greatest in the code point order of
    the strings, wherever it stands in the sequence. *)
Theorem tie_goes_to_greatest_string (q : string) (qs : list string) (m x : string) :
  find_best_match q qs = Some m → x ∈ qs → (score q x == score q m)%Q →
  String.ltb m x = false ∧ (x ≠ m → String.ltb x m = true).
Proof.
  intros Hm Hx Heq.
  pose proof (find_best_match_cases q qs) as H. rewrite Hm in H.
  destruct H as (Hin & Hc & Hmax).
  assert (String.ltb m x = false) as Hlt.
  { destruct (Hmax x Hx) as [_ Htie]; [|by apply Htie].
    eapply ge_cutoff_mono; [|done]. simpl. rewrite Heq. apply Qle_refl. }
  split; [done|]. intros Hne. apply string_ltb_total; [done|congruence].
Qed.

Lemma tie_goes_to_greatest_string_witness :
  String.ltb "abce" "abcd" = false ∧ ("abcd" ≠ "abce" → String.ltb "abcd" "abce" = true).
Proof.
  apply (tie_goes_to_greatest_string "abc" ["abcd"; "abce"] "abce" "abcd").
  - vm_compute. reflexivity.
  - left.
  - vm_compute. reflexivity.
Defined.

(** C9, as stated: two questions tie above the threshold, and the second of
    the sequence is returned. *)
Lemma tie_returns_later_question :
  (score "abc" "abcd" == score "abc" "abce")%Q
  ∧ (cutoff <= score "abc" "abcd")%Q
  ∧ find_best_match "abc" ["abcd"; "abce"] = Some "abce"
  ∧ find_best_match "abc" ["abcd"; "abce"] ≠ Some "abcd".
Proof. vm_compute. repeat split; try done. Qed.

(** ** The matched branch *)

Lemma get_answer_Some (q : string) (kb : knowledge_base) (e : entry) :
  e ∈ kb → lower (question e) = lower q →
  ∃ e', e' ∈ kb ∧ lower (question e') = lower q ∧ get_answer q kb = Some (answer e').
Proof.
  induction kb as [|e0 kb IH]; intros He Hq; [by apply elem_of_nil in He|].
  simpl. destruct (String.eqb_spec (lower (question e0)) (lower q)) as [Heq|Hne].
  - exists e0. split; [by left|done].
  - apply elem_of_cons in He as [->|He]; [done|].
    destruct (IH He Hq) as (e' & He' & Hq' & Ha).
    exists e'. split; [by right|done].
Qed.

(** C10: whenever [find_best_match] over the questions of a knowledge base
    returns a question, [get_answer] for that question returns the stored
    answer of an entry of the knowledge base, so the assistant message of the
    matched branch never carries a missing value. *)
Theorem matched_question_has_answer (kb : knowledge_base) (prompt m : string) :
  find_best_match prompt (question <$> kb) = Some m →
  ∃ e, e ∈ kb ∧ lower (question e) = lower m ∧ get_answer m kb = Some (answer e).
Proof.
  intros Hm.
  pose proof (find_best_match_cases prompt (question <$> kb)) as H.
  rewrite Hm in H. destruct H as (Hin & _).
  apply list_elem_of_fmap in Hin as (e & -> & He).
  by apply (get_answer_Some _ _ e).
Qed.

Lemma matched_question_has_answer_witness :
  ∃ e, e ∈ [mkEntry "What is Contec?" "A company."; mkEntry "hello" "Hi there!"]
       ∧ lower (question e) = lower "hello"
       ∧ get_answer "hello"
           [mkEntry "What is Contec?" "A company."; mkEntry "hello" "Hi there!"]
         = Some (answer e).
Proof.
  apply (matched_question_has_answer
           [mkEntry "What is Contec?" "A company."; mkEntry "hello" "Hi there!"]
           "helo" "hello").
  vm_compute. reflexivity.
Defined.

(** * Further properties of the matcher *)

Lemma length_list_ascii (s : string) :
  length (String.list_ascii_of_string s) = String.length s.
Proof. induction s as [|c s IH]; simpl; [done|]. by rewrite IH. Qed.

Lemma calculate_ratio_ge (m len : nat) (c : Q) :
  0 < len →
  ge_cutoff (_calculate_ratio m len) c = true →
  (Qnum c * Z.of_nat len <= 2 * Z.of_nat m * Zpos (Qden c))%Z.
Proof.
  intros Hlen. unfold ge_cutoff, _calculate_ratio. rewrite Qle_bool_iff.
  destruct len as [|n]; [lia|]. unfold Qle. simpl Qnum. simpl Qden.
  rewrite <- Pos.of_nat_succ. 
  replace (Z.pos (Pos.of_succ_nat n)) with (Z.of_nat (S n)) by lia.
  lia.
Qed.

Lemma score_bounds (word x : string) :
  (0 <= score word x)%Q ∧ (score word x <= 1)%Q.
Proof.
  split.
  - unfold score, ratio, _calculate_ratio.
    destruct (_ + _); [done|]. unfold Qle. simpl. lia.
  - eapply Qle_trans; [apply ratio_le_quick_ratio, matcher_sound|].
    eapply Qle_trans; [apply quick_ratio_le_real_quick_ratio|].
    unfold real_quick_ratio, _calculate_ratio.
    destruct (_ + _) as [|n] eqn:E; [done|].
    unfold Qle. simpl Qnum. simpl Qden.
    rewrite <- Pos.of_nat_succ.
    replace (Z.pos (Pos.of_succ_nat n)) with (Z.of_nat (S n)) by lia.
    rewrite <- E, matcher_a, matcher_b. lia.
Qed.

(** X1: A score lies between 0 and 1. *)
Theorem score_between_0_and_1 (word x : string) :
  (0 <= score word x)%Q ∧ (score word x <= 1)%Q.
Proof. apply score_bounds. Qed.

(** Characters a word and a candidate at or above the cutoff have in
    common, and their lengths. *)
Lemma cutoff_common_characters (q m : string) :
  ge_cutoff (score q m) cutoff = true →
  let common := size (chars (String.list_ascii_of_string q)
                      ∩ chars (String.list_ascii_of_string m)) in
  3 * (String.length q + String.length m) ≤ 10 * common
  ∧ 3 * (String.length q `max` String.length m)
    ≤ 7 * (String.length q `min` String.length m).
Proof.
  intros Hc. cbv zeta.
  pose proof (ratio_le_quick_ratio _ (matcher_sound q m)) as H1.
  pose proof (ge_cutoff_mono _ _ _ H1 Hc) as Hq.
  pose proof (quick_matches_le_min (matcher q m)) as Hmin.
  rewrite quick_matches_size in Hmin.
  unfold quick_ratio in Hq. rewrite quick_matches_size in Hq.
  rewrite matcher_a, matcher_b in *. rewrite !length_list_ascii in *.
  set (common := size _) in *.
  destruct (decide (String.length m + String.length q = 0)) as [Hz|Hz]; [lia|].
  apply calculate_ratio_ge in Hq; [|lia]. simpl in Hq.
  assert (common = size (chars (String.list_ascii_of_string q)
                         ∩ chars (String.list_ascii_of_string m))) as <-.
  { unfold common. f_equal. multiset_solver. }
  lia.
Qed.

(** X5: A question is matched only to a known question of comparable length
    with enough characters in common: the two share, counted with
    multiplicity, at least three tenths of the characters of both together,
    so neither is more than 7/3 times as long as the other. *)
Theorem best_match_is_of_similar_length (q : string) (qs : list string) (m : string) :
  find_best_match q qs = Some m →
  let common := size (chars (String.list_ascii_of_string q)
                      ∩ chars (String.list_ascii_of_string m)) in
  3 * (String.length q + String.length m) ≤ 10 * common
  ∧ 3 * (String.length q `max` String.length m)
    ≤ 7 * (String.length q `min` String.length m).
Proof.
  intros Hm. pose proof (find_best_match_cases q qs) as H. rewrite Hm in H.
  destruct H as (_ & Hc & _). by apply cutoff_common_characters.
Qed.

Lemma best_match_is_of_similar_length_witness :
  let common := size (chars (String.list_ascii_of_string "helo")
                      ∩ chars (String.list_ascii_of_string "hello")) in
  3 * (String.length "helo" + String.length "hello") ≤ 10 * common
  ∧ 3 * (String.length "helo" `max` String.length "hello")
    ≤ 7 * (String.length "helo" `min` String.length "hello").
Proof.
  apply (best_match_is_of_similar_length "helo" ["bye"; "hello"] "hello").
  vm_compute. reflexivity.
Defined.

(** A match of a non-empty question is not the empty string. *)
Lemma best_match_truthy (q : string) (qs : list string) (m : string) :
  find_best_match q qs = Some m → truthy q = true → truthy m = true.
Proof.
  intros Hm Hq. pose proof (find_best_match_cases q qs) as H. rewrite Hm in H.
  destruct H as (_ & Hc & _).
  destruct (cutoff_common_characters q m Hc) as [_ Hlen].
  destruct q; [done|]. destruct m; [|done]. simpl in Hlen. lia.
Qed.

(** ** Only equal strings score 1 *)

Lemma slice_empty (l : list ascii) (lo : nat) : slice l lo lo = [].
Proof. unfold slice. by rewrite Nat.sub_diag. Qed.

Lemma pot_split s alo ahi blo bhi i j k :
  range_ok s (alo, ahi, blo, bhi) →
  block_ok s alo ahi blo bhi i j k →
  2 * k
  + (if (alo <? i) && (blo <? j) then pot s (alo, i, blo, j) else 0)
  + (if (i + k <? ahi) && (j + k <? bhi) then pot s (i + k, ahi, j + k, bhi) else 0)
  ≤ pot s (alo, ahi, blo, bhi).
Proof.
  intros (R1 & R2 & R3 & R4) Hb.
  pose proof (block_slices _ _ _ _ _ _ _ _ R2 R4 Hb) as Heq.
  destruct Hb as (H1 & H2 & H3 & H4 & H5). unfold pot.
  assert (Hcat : slice (sm_a s) alo i = slice (sm_b s) blo j →
                 slice (sm_a s) (i + k) ahi = slice (sm_b s) (j + k) bhi →
                 slice (sm_a s) alo ahi = slice (sm_b s) blo bhi).
  { intros HL HR.
    rewrite (slice_split (sm_a s) alo i ahi), (slice_split (sm_a s) i (i + k) ahi) by lia.
    rewrite (slice_split (sm_b s) blo j bhi), (slice_split (sm_b s) j (j + k) bhi) by lia.
    by rewrite HL, HR, Heq. }
  assert (HL0 : i = alo → j = blo → slice (sm_a s) alo i = slice (sm_b s) blo j).
  { intros -> ->. by rewrite !slice_empty. }
  assert (HR0 : i + k = ahi → j + k = bhi →
                slice (sm_a s) (i + k) ahi = slice (sm_b s) (j + k) bhi).
  { intros -> ->. by rewrite !slice_empty. }
  destruct (decide (slice (sm_a s) alo ahi = slice (sm_b s) blo bhi)) as [E|E];
    destruct (decide (slice (sm_a s) alo i = slice (sm_b s) blo j)) as [EL|EL];
    destruct (decide (slice (sm_a s) (i + k) ahi = slice (sm_b s) (j + k) bhi)) as [ER|ER];
    destruct (Nat.ltb_spec alo i), (Nat.ltb_spec blo j),
      (Nat.ltb_spec (i + k) ahi), (Nat.ltb_spec (j + k) bhi);
    simpl andb; cbv iota; try lia;
    try (exfalso; apply E, Hcat; done);
    try (exfalso; apply EL, HL0; lia);
    try (exfalso; apply ER, HR0; lia).
Qed.

Lemma blocks_step_pot s r queue blocks :
  b2j_sound s → range_ok s r →
  let '(q, bl) := blocks_step s r queue blocks in
  2 * sum_sizes bl + pots s q ≤ 2 * sum_sizes blocks + pot s r + pots s queue.
Proof.
  intros Hs Hr. destruct r as [[[alo ahi] blo] bhi].
  pose proof Hr as (R1 & R2 & R3 & R4).
  pose proof (find_longest_match_ok s Hs alo ahi blo bhi R1 R3) as Hb.
  pose proof (pot_split s alo ahi blo bhi) as Hp.
  unfold blocks_step.
  destruct (find_longest_match s alo ahi blo bhi) as [[i j] k].
  specialize (Hp i j k Hr Hb).
  destruct k as [|k]; [lia|].
  rewrite sum_sizes_app.
  replace (sum_sizes [(i, j, S k)]) with (S k) by (unfold sum_sizes; simpl; lia).
  destruct ((alo <? i) && (blo <? j)), ((i + S k <? ahi) && (j + S k <? bhi));
    unfold pots; cbn [foldr]; fold (pots s queue); lia.
Qed.

Lemma blocks_loop_pot s fuel :
  b2j_sound s →
  ∀ queue blocks bl,
    Forall (range_ok s) queue →
    blocks_loop s fuel queue blocks = Some bl →
    2 * sum_sizes bl ≤ 2 * sum_sizes blocks + pots s queue.
Proof.
  intros Hs. induction fuel as [|fuel IH]; intros queue blocks bl Hq Hrun.
  - destruct queue; simpl in Hrun; [|done]. injection Hrun as <-. lia.
  - destruct queue as [|r queue]; simpl in Hrun.
    { injection Hrun as <-. lia. }
    apply Forall_cons in Hq as [Hr Hq].
    pose proof (blocks_step_pot s r queue blocks Hs Hr) as Hstep.
    pose proof (blocks_step_ok s r queue blocks Hs Hr Hq) as Hok.
    destruct (blocks_step s r queue blocks) as [q bl0].
    destruct Hok as (Hq' & _).
    specialize (IH q bl0 bl Hq' Hrun). simpl. lia.
Qed.

(** Twice the matched characters fall short of the two lengths together
    when the sequences differ. *)
Lemma matches_of_different_sequences s :
  b2j_sound s → sm_a s ≠ sm_b s →
  2 * sum_sizes (get_matching_blocks s) + 1 ≤ length (sm_a s) + length (sm_b s).
Proof.
  intros Hs Hne. rewrite get_matching_blocks_sum.
  assert (Hq : Forall (range_ok s) [(0, length (sm_a s), 0, length (sm_b s))]).
  { apply Forall_cons. split; [simpl; lia|done]. }
  destruct (blocks_loop_ok s (blocks_fuel s) Hs
              [(0, length (sm_a s), 0, length (sm_b s))] []) as (bl & Hrun & _).
  - done.
  - unfold blocks_fuel. simpl. lia.
  - rewrite Hrun. simpl.
    pose proof (blocks_loop_pot s _ Hs _ _ _ Hq Hrun) as Hp.
    simpl in Hp. rewrite !slice_full in Hp.
    rewrite decide_False in Hp by done.
    assert (0 < length (sm_a s) + length (sm_b s)); [|lia].
    destruct (sm_a s), (sm_b s); simpl; try lia. done.
Qed.

Lemma calculate_ratio_1 (m len : nat) :
  (_calculate_ratio m len == 1)%Q → len = 0 ∨ 2 * m = len.
Proof.
  unfold _calculate_ratio. destruct len as [|n]; [by left|].
  unfold Qeq. simpl Qnum. simpl Qden. rewrite <- Pos.of_nat_succ. lia.
Qed.

Lemma score_1_identical (word x : string) :
  (score word x == 1)%Q → x = word.
Proof.
  intros H. apply calculate_ratio_1 in H.
  rewrite matcher_a, matcher_b in H.
  assert (String.list_ascii_of_string x = String.list_ascii_of_string word) as Heq.
  { destruct (decide (String.list_ascii_of_string x = String.list_ascii_of_string word))
      as [E|E]; [done|].
    pose proof (matches_of_different_sequences (matcher word x)
                  (matcher_sound word x)) as Hlt.
    rewrite matcher_a, matcher_b in Hlt. specialize (Hlt E).
    destruct H as [H|H]; [|lia].
    exfalso. apply E.
    destruct (String.list_ascii_of_string x), (String.list_ascii_of_string word);
      simpl in H; try lia. done. }
  rewrite <- (String.string_of_list_ascii_of_string x),
          <- (String.string_of_list_ascii_of_string word). by rewrite Heq.
Qed.

#[local] Arguments run_before : simpl never.

Lemma run_before_eq (s : SequenceMatcher) (t : nat) :
  run_before s (S t)
  = if bool_decide (is_Some (b2j s !! item (sm_b s) t))
    then S (run_before s t) else 0.
Proof. done. Qed.

(** ** The index lists all positions, in order *)

Lemma StronglySorted_snoc (js : list nat) (t : nat) :
  StronglySorted lt js → Forall (λ j, j < t) js → StronglySorted lt (js ++ [t]).
Proof.
  induction 1 as [|j js Hs IH Hj]; intros Ht; simpl.
  - repeat constructor.
  - apply Forall_cons in Ht as [Hjt Ht]. constructor; [by apply IH|].
    apply Forall_app. split; [done|]. by repeat constructor.
Qed.

Lemma chain_fold_exact (b : list ascii) (rest : list ascii) :
  ∀ t m, drop t b = rest →
         index_sorted m t → index_complete b m t →
         index_sorted (foldl chain_step m (zip (seq t (length rest)) rest)) (t + length rest)
         ∧ index_complete b (foldl chain_step m (zip (seq t (length rest)) rest))
             (t + length rest).
Proof.
  induction rest as [|e rest IH]; intros t m Hd Hs Hc; simpl.
  - by rewrite Nat.add_0_r.
  - assert (Ht : b !! t = Some e).
    { rewrite <- (Nat.add_0_r t), <- lookup_drop, Hd. done. }
    replace (t + S (length rest)) with (S t + length rest) by lia.
    apply IH.
    + rewrite (drop_S _ _ _ Ht) in Hd. by injection Hd.
    + intros c js. unfold chain_step. simpl.
      destruct (decide (e = c)) as [->|Hne].
      * rewrite lookup_insert_eq. intros [= <-].
        destruct (m !! c) as [js0|] eqn:E; simpl.
        -- destruct (Hs _ _ E) as [H1 H2]. split.
           ++ by apply StronglySorted_snoc.
           ++ apply Forall_app. split; [|repeat constructor; lia].
              eapply Forall_impl; [done|]. simpl. lia.
        -- split; repeat constructor; lia.
      * rewrite lookup_insert_ne by done. intros E.
        destruct (Hs _ _ E) as [H1 H2]. split; [done|].
        eapply Forall_impl; [done|]. simpl. lia.
    + intros j c Hj Hb. unfold chain_step. simpl.
      destruct (decide (j = t)) as [->|Hjt].
      * assert (c = e) as -> by congruence.
        rewrite lookup_insert_eq. eexists. split; [done|].
        apply elem_of_app. right. by left.
      * destruct (Hc j c ltac:(lia) Hb) as (js & E & Hin).
        destruct (decide (e = c)) as [->|Hne].
        -- rewrite lookup_insert_eq, E. simpl. eexists. split; [done|].
           apply elem_of_app. by left.
        -- rewrite lookup_insert_ne by done. eauto.
Qed.

Lemma chain_b_exact (a b : list ascii) : b2j_exact (chain_b a b).
Proof.
  unfold b2j_exact, chain_b. simpl.
  intros c js [Hc _]%map_lookup_filter_Some.
  destruct (chain_fold_exact b b 0 ∅) as [Hs Hcomp].
  - done.
  - intros ??. by rewrite lookup_empty.
  - intros ??. lia.
  - unfold enumerate in Hc. simpl in *. split.
    + by destruct (Hs _ _ Hc).
    + intros j Hj. destruct (Hcomp j c) as (js' & E & Hin); [|done|].
      * by apply lookup_lt_Some in Hj.
      * rewrite Hc in E. by injection E as <-.
Qed.

Lemma matcher_exact (word x : string) : b2j_exact (matcher word x).
Proof. exact (chain_b_exact [] (String.list_ascii_of_string word)). Qed.

(** ** Equal sequences: the longest match is the whole sequence *)

Section Diagonal.
Variable s : SequenceMatcher.
Hypothesis Hab : sm_a s = sm_b s.
Hypothesis Hjunk : bjunk s = ∅.
Hypothesis Hsound : b2j_sound s.
Hypothesis Hexact : b2j_exact s.

Lemma run_before_S (j : nat) (js : list nat) :
  b2j s !! item (sm_b s) j = Some js → run_before s (S j) = S (run_before s j).
Proof. intros E. rewrite run_before_eq, E. by rewrite bool_decide_eq_true_2. Qed.

Lemma scan_row_diag (t : nat) (j2len : gmap nat nat) (js0 : list nat) :
  b2j s !! item (sm_b s) t = Some js0 →
  (∀ j k, j2len !! j = Some k → k ≤ run_before s t ∧ k ≤ run_before s (S j)) →
  (∀ t', t = S t' → run_before s t ≤ default 0 (j2len !! t')) →
  ∀ js (dn : bool) bst new,
    StronglySorted lt js →
    (∀ j, j ∈ js → j ∈ js0) →
    besti bst = bestj bst →
    (∀ i, i ≤ t → run_before s i ≤ bestsize bst) →
    (∀ j k, new !! j = Some k → k ≤ run_before s (S t) ∧ k ≤ run_before s (S j)) →
    (if dn
     then run_before s (S t) ≤ bestsize bst
          ∧ new !! t = Some (run_before s (S t)) ∧ Forall (lt t) js
     else t ∈ js) →
    let r := scan_row t 0 (length (sm_b s)) j2len js bst new in
    besti r.1 = bestj r.1
    ∧ (∀ i, i ≤ S t → run_before s i ≤ bestsize r.1)
    ∧ (∀ j k, r.2 !! j = Some k → k ≤ run_before s (S t) ∧ k ≤ run_before s (S j))
    ∧ r.2 !! t = Some (run_before s (S t)).
Proof.
  intros Ht Hrow Hdiag.
  pose proof (run_before_S t js0 Ht) as HSt.
  induction js as [|j js IH]; intros dn bst new Hsort Hsub Hd Hbest Hnew Hdn; simpl.
  - destruct dn; [|by apply elem_of_nil in Hdn].
    destruct Hdn as (H1 & H2 & _). split; [done|]. split; [|done].
    intros i Hi. destruct (decide (i = S t)) as [->|]; [done|]. apply Hbest. lia.
  - assert (Hj : sm_b s !! j = Some (item (sm_b s) t)).
    { apply (Hsound _ js0); [done|]. apply Hsub. by left. }
    assert (Hjn : j < length (sm_b s)) by (by apply lookup_lt_Some in Hj).
    assert (Hitem : item (sm_b s) j = item (sm_b s) t).
    { unfold item at 1. by apply nth_lookup_Some with (d := Ascii.zero) in Hj. }
    assert (HSj : run_before s (S j) = S (run_before s j)).
    { apply (run_before_S j js0). by rewrite Hitem. }
    simpl. destruct (Nat.leb_spec (length (sm_b s)) j) as [|_]; [lia|].
    set (prev := match j with O => 0 | S j' => default 0 (j2len !! j') end).
    assert (Hprev : prev ≤ run_before s t ∧ prev ≤ run_before s j).
    { unfold prev. destruct j as [|j']; [lia|].
      destruct (j2len !! j') as [k|] eqn:E; simpl; [by apply Hrow|lia]. }
    apply StronglySorted_inv in Hsort as [Hsort Hlt].
    assert (Hsub' : ∀ j', j' ∈ js → j' ∈ js0).
    { intros j' Hj'. apply Hsub. by right. }
    assert (Hins : ∀ j' k, <[j := prev + 1]> new !! j' = Some k →
                     k ≤ run_before s (S t) ∧ k ≤ run_before s (S j')).
    { intros j' k. destruct (decide (j' = j)) as [->|Hne].
      - rewrite lookup_insert_eq. intros [= <-]. lia.
      - rewrite lookup_insert_ne by done. apply Hnew. }
    destruct dn.
    + destruct Hdn as (H1 & H2 & H3). apply Forall_cons in H3 as [Htj H3].
      destruct (Nat.ltb_spec (bestsize bst) (prev + 1)) as [|_]; [lia|].
      apply (IH true); try done. repeat split; try done.
      rewrite lookup_insert_ne by lia. done.
    + destruct (decide (j = t)) as [->|Hne].
      * assert (prev = run_before s t) as Hp.
        { apply Nat.le_antisymm; [lia|]. unfold prev.
          destruct t as [|t']; [exact (le_n 0)|]. by apply Hdiag. }
        apply (IH true); try done.
        -- by destruct (Nat.ltb_spec (bestsize bst) (prev + 1)).
        -- intros i Hi. specialize (Hbest i Hi).
           destruct (Nat.ltb_spec (bestsize bst) (prev + 1)); simpl; lia.
        -- repeat split.
           ++ destruct (Nat.ltb_spec (bestsize bst) (prev + 1)); simpl; lia.
           ++ rewrite lookup_insert_eq. f_equal. lia.
           ++ done.
      * apply elem_of_cons in Hdn as [->|Hdn]; [done|].
        assert (j < t) by (by eapply Forall_forall in Hlt).
        pose proof (Hbest (S j) ltac:(lia)).
        destruct (Nat.ltb_spec (bestsize bst) (prev + 1)) as [|_]; [lia|].
        apply (IH false); done.
Qed.

Lemma scan_diag (t : nat) :
  t ≤ length (sm_b s) →
  diag_ok s t (foldl (scan_step s 0 (length (sm_b s))) (mkBest 0 0 0, ∅) (seq 0 t)).
Proof.
  intros Ht. induction t as [|t IH].
  - simpl. split; [done|]. split; [|split; [done|done]].
    intros i Hi. replace i with 0 by lia. exact (le_n 0).
  - rewrite seq_S, foldl_app. simpl.
    destruct (IH ltac:(lia)) as (I1 & I2 & I3 & I4).
    set (st := foldl _ _ _) in *. unfold scan_step. rewrite Hab.
    destruct (b2j s !! item (sm_b s) t) as [js0|] eqn:E; simpl.
    + destruct (Hexact _ _ E) as [Hsort Hcomp].
      destruct (scan_row_diag t st.2 js0 E I3 I4 js0 false st.1 ∅)
        as (R1 & R2 & R3 & R4); try done.
      { apply Hcomp. unfold item.
        destruct (nth_lookup_or_length (sm_b s) t Ascii.zero); [done|lia]. }
      unfold diag_ok. split; [done|]. split; [done|]. split; [done|].
      intros t' [= <-]. rewrite R4. done.
    + assert (run_before s (S t) = 0) as H0.
      { rewrite run_before_eq, E. rewrite bool_decide_eq_false_2; [done|]. by intros [??]. }
      unfold diag_ok. simpl. split; [done|]. split; [|split; [done|]].
      * intros i Hi. destruct (decide (i = S t)) as [->|]; [|apply I2; lia].
        rewrite H0. lia.
      * intros t' _. rewrite H0. lia.
Qed.

Lemma extend_left_diag (d : nat) :
  ∀ k, extend_left s false 0 0 d d k = mkBest 0 0 (k + d).
Proof.
  induction d as [|d IH]; intros k; simpl.
  - by rewrite Nat.add_0_r.
  - unfold isbjunk. rewrite Hjunk, Hab, Ascii.eqb_refl.
    rewrite bool_decide_eq_false_2 by set_solver. simpl.
    rewrite IH. f_equal. lia.
Qed.

Lemma extend_right_diag (gap : nat) :
  ∀ bs, bs + gap = length (sm_b s) →
        extend_right s false (length (sm_b s)) gap 0 0 bs
        = mkBest 0 0 (length (sm_b s)).
Proof.
  induction gap as [|gap IH]; intros bs Hn; simpl.
  - f_equal. lia.
  - unfold isbjunk. rewrite Hjunk, Hab, Ascii.eqb_refl.
    rewrite bool_decide_eq_false_2 by set_solver.
    destruct (Nat.ltb_spec bs (length (sm_b s))); [|lia]. simpl.
    apply IH. lia.
Qed.

(** Over equal sequences the longest match is the whole sequence, whatever
    characters the index has dropped as popular. *)
Lemma find_longest_match_equal :
  find_longest_match s 0 (length (sm_a s)) 0 (length (sm_b s))
  = (0, 0, length (sm_b s)).
Proof.
  unfold find_longest_match.
  pose proof (scan_diag (length (sm_b s)) (le_n _)) as (Hd & _).
  pose proof (scan_ok s Hsound 0 0 (length (sm_b s)) (length (sm_b s)) (Nat.le_0_l _))
    as [(_ & Hk & _) _].
  rewrite Hab, Nat.sub_0_r.
  set (st := foldl _ _ _) in *. simpl in Hk.
  destruct st.1 as [bi bj bs] eqn:E. simpl in *. subst bj.
  assert (extend s false 0 (length (sm_b s)) 0 (length (sm_b s)) (mkBest bi bi bs)
          = mkBest 0 0 (length (sm_b s))) as ->.
  { unfold extend. simpl. rewrite extend_left_diag. simpl.
    apply extend_right_diag. lia. }
  unfold extend. simpl. by rewrite Nat.sub_diag.
Qed.

Lemma blocks_of_equal :
  sum_sizes (get_matching_blocks s) = length (sm_b s).
Proof.
  rewrite get_matching_blocks_sum.
  unfold blocks_fuel. rewrite Nat.add_1_r.
  assert (Hstep : ∀ f r, blocks_loop s (S f) [r] []
                         = let '(q, bl) := blocks_step s r [] [] in
                           blocks_loop s f q bl) by done.
  rewrite Hstep. unfold blocks_step. rewrite find_longest_match_equal.
  rewrite Hab. destruct (length (sm_b s)) as [|n] eqn:E.
  - by destruct (2 * 0).
  - simpl andb. rewrite Nat.ltb_irrefl. simpl.
    destruct (n + S (n + 0)); simpl; unfold sum_sizes; simpl; lia.
Qed.

Lemma ratio_of_equal : (ratio s == 1)%Q.
Proof.
  unfold ratio. rewrite blocks_of_equal, Hab.
  unfold _calculate_ratio.
  destruct (length (sm_b s) + length (sm_b s)) as [|n] eqn:E; [done|].
  unfold Qeq. simpl Qnum. simpl Qden. rewrite <- Pos.of_nat_succ. lia.
Qed.
End Diagonal.

(** A string scores 1 against itself. *)
Lemma score_self (x : string) : (score x x == 1)%Q.
Proof.
  apply ratio_of_equal.
  - done.
  - done.
  - apply matcher_sound.
  - apply matcher_exact.
Qed.

(** ** Exact questions, and the order of the known questions *)

(** X2: A candidate scores 1 exactly when it is the word itself. *)
Theorem score_is_1_iff_identical (word x : string) :
  (score word x == 1)%Q ↔ x = word.
Proof.
  split.
  - apply score_1_identical.
  - intros ->. apply score_self.
Qed.

Lemma find_best_match_exact (q : string) (qs : list string) :
  q ∈ qs → find_best_match q qs = Some q.
Proof.
  intros Hq. pose proof (find_best_match_cases q qs) as H.
  assert (Hc : ge_cutoff (score q q) cutoff = true).
  { unfold ge_cutoff. apply Qle_bool_iff. rewrite score_self. done. }
  destruct (find_best_match q qs) as [m|].
  - destruct H as (_ & _ & Hmax). f_equal.
    destruct (Hmax q Hq Hc) as [Hle _]. simpl in Hle.
    apply score_1_identical. apply Qle_antisym.
    + apply score_bounds.
    + by rewrite <- (score_self q).
  - by rewrite (H q Hq) in Hc.
Qed.

(** X3: A question that is among the known questions is its own best match. *)
Theorem known_question_matches_itself (q : string) (qs : list string) :
  q ∈ qs → find_best_match q qs = Some q.
Proof. apply find_best_match_exact. Qed.

Lemma known_question_matches_itself_witness :
  find_best_match "hello" ["help"; "hello"; "hallo"] = Some "hello".
Proof.
  apply (known_question_matches_itself "hello" ["help"; "hello"; "hallo"]).
  right. left.
Defined.

(** X4: The best match depends on which questions are known, not on their
    order or on repetitions in the sequence. *)
Theorem best_match_ignores_order (q : string) (qs qs' : list string) :
  (∀ x, x ∈ qs ↔ x ∈ qs') → find_best_match q qs = find_best_match q qs'.
Proof.
  intros Hsame.
  pose proof (find_best_match_cases q qs) as H.
  pose proof (find_best_match_cases q qs') as H'.
  destruct (find_best_match q qs) as [m|], (find_best_match q qs') as [m'|].
  - destruct H as (Hin & Hc & Hmax), H' as (Hin' & Hc' & Hmax').
    apply Hsame in Hin. apply Hsame in Hin'.
    destruct (Hmax m' Hin' Hc') as [L1 T1], (Hmax' m Hin Hc) as [L2 T2].
    simpl in *.
    assert (score q m == score q m')%Q as E by (by apply Qle_antisym).
    specialize (T1 (Qeq_sym _ _ E)). specialize (T2 E).
    destruct (decide (m = m')) as [->|Hne]; [done|].
    by rewrite (string_ltb_total m m' T1 Hne) in T2.
  - destruct H as (Hin & Hc & _). apply Hsame in Hin.
    by rewrite (H' m Hin) in Hc.
  - destruct H' as (Hin & Hc & _). apply Hsame in Hin.
    by rewrite (H m' Hin) in Hc.
  - done.
Qed.

Lemma best_match_ignores_order_witness :
  find_best_match "abc" ["abcd"; "abce"] = find_best_match "abc" ["abce"; "abcd"; "abce"].
Proof.
  apply (best_match_ignores_order "abc" ["abcd"; "abce"] ["abce"; "abcd"; "abce"]).
  intros x. rewrite !elem_of_cons, !elem_of_nil. tauto.
Defined.

(** * Further properties of the script run *)

#[local] Arguments find_best_match : simpl never.

(** Case analysis on the innermost condition the run still branches on. *)
Ltac destruct_scrutinee t :=
  match t with
  | context [match ?y with _ => _ end] => destruct_scrutinee y
  | _ => destruct t eqn:?
  end.

Ltac split_run :=
  repeat (match goal with
          | |- context [match ?x with _ => _ end] => destruct_scrutinee x
          end; simpl).

Ltac booleans :=
  repeat match goal with
         | H : _ && _ = true |- _ => apply andb_prop in H as [??]
         | H : negb _ = false |- _ => apply negb_false_iff in H
         | H : negb _ = true |- _ => apply negb_true_iff in H
         | H : String.eqb _ _ = true |- _ => apply String.eqb_eq in H
         end.

(** ** Authentication *)

(** X13: A run turns [authenticated] on only when the secret is configured, the
    button Authenticate is clicked and the text of the password box is the
    secret; that happens only while a question is pending in an active
    session. *)
Theorem authentication_needs_the_password (env : run_env)
    (sess : option session_state) (f : medium) :
  let s := default fresh_session sess in
  authenticated s = false →
  authenticated (session (display_chat env sess f).2) = true →
  trainer_password env = Some (password_input env)
  ∧ authenticate_clicked env = true
  ∧ chat_active s = true
  ∧ truthy (current_question s) = true.
Proof.
  destruct (default fresh_session sess) as [ca ms aw cq fi au] eqn:Hs.
  simpl. intros ->. run_script. rewrite Hs. simpl.
  split_run; try done; intros _; booleans; subst; auto.
Qed.

Lemma authentication_needs_the_password_witness :
  trainer_password (mkEnv false None (Some "pw") "pw" true "" false false WriteCompletes)
  = Some "pw"
  ∧ true = true ∧ true = true ∧ truthy "hello" = true.
Proof.
  apply (authentication_needs_the_password
           (mkEnv false None (Some "pw") "pw" true "" false false WriteCompletes)
           (Some (mkSession true [] false "hello" false false)) Absent);
    reflexivity.
Defined.

(** X15: Logout ends the run at once: the trainer is logged out and the pending
    question is dropped; the transcript and the file stay, and what the chat
    input or the training form hold in the same run is not processed. *)
Theorem logout_drops_pending_question (env : run_env) (s : session_state)
    (f : medium) :
  authenticated s = true →
  logout_clicked env = true →
  let r := display_chat env (Some s) f in
  r.1 = Left Rerun
  ∧ authenticated (session r.2) = false
  ∧ pending_question (session r.2) = None
  ∧ chat_active (session r.2) = chat_active s
  ∧ messages (session r.2) = messages s
  ∧ file r.2 = f.
Proof.
  destruct s as [ca ms aw cq fi au]. simpl. intros -> Hl. run_script.
  rewrite Hl. done.
Qed.

Lemma logout_drops_pending_question_witness :
  let s := mkSession true [mkMessage user (Some "hello")] false "hello" false true in
  let r := display_chat
             (mkEnv true (Some "again") (Some "pw") "" false "Hi" true false WriteCompletes)
             (Some s) Absent in
  r.1 = Left Rerun
  ∧ authenticated (session r.2) = false
  ∧ pending_question (session r.2) = None
  ∧ chat_active (session r.2) = chat_active s
  ∧ messages (session r.2) = messages s
  ∧ file r.2 = Absent.
Proof.
  apply (logout_drops_pending_question
           (mkEnv true (Some "again") (Some "pw") "" false "Hi" true false WriteCompletes)
           (mkSession true [mkMessage user (Some "hello")] false "hello" false true)
           Absent); reflexivity.
Defined.

(** ** The transcript and the session keys *)

Lemma awaiting_run (env : run_env) (sess : option session_state) (f : medium) :
  awaiting_answer (default fresh_session sess) = false →
  awaiting_answer (session (display_chat env sess f).2) = false.
Proof.
  destruct (default fresh_session sess) as [ca ms aw cq fi au] eqn:Hs.
  simpl. intros ->. run_script. rewrite Hs. simpl.
  split_run; done.
Qed.

(** X16: No run sets [awaiting_answer]: the key is written with [False] only, so
    the branch [if not st.session_state.awaiting_answer] is the one every
    prompt takes in a session the script created. *)
Theorem awaiting_answer_stays_false (env : run_env)
    (sess : option session_state) (f : medium) :
  awaiting_answer (default fresh_session sess) = false →
  awaiting_answer (session (display_chat env sess f).2) = false.
Proof. apply awaiting_run. Qed.

Lemma awaiting_answer_stays_false_witness :
  awaiting_answer
    (session
       (display_chat
          (mkEnv false (Some "hello") None "" false "" false false WriteCompletes)
          None Absent).2) = false.
Proof.
  apply (awaiting_answer_stays_false
           (mkEnv false (Some "hello") None "" false "" false false WriteCompletes)
           None Absent).
  reflexivity.
Defined.

(** X17: A run only appends to the transcript, and at most two messages. *)
Theorem transcript_only_grows (env : run_env)
    (sess : option session_state) (f : medium) :
  ∃ new,
    messages (session (display_chat env sess f).2)
    = messages (default fresh_session sess) ++ new
    ∧ length new ≤ 2.
Proof.
  destruct (default fresh_session sess) as [ca ms aw cq fi au] eqn:Hs.
  run_script. rewrite Hs. simpl.
  assert (Hdone : ∀ l : list message,
            (l = ms ∨ (∃ x, l = ms ++ [x]) ∨ (∃ x y, l = (ms ++ [x]) ++ [y])) →
            ∃ new, l = ms ++ new ∧ length new ≤ 2).
  { intros l [-> | [[x ->] | (x & y & ->)]].
    - exists []. rewrite app_nil_r. split; [reflexivity|simpl; lia].
    - exists [x]. split; [reflexivity|simpl; lia].
    - exists [x; y]. rewrite <- app_assoc. split; [reflexivity|simpl; lia]. }
  split_run; apply Hdone; eauto.
Qed.

(** ** Writes to the file *)

(** X11: The file is written only in a run that starts with the trainer
    authenticated, a question pending and the session active, and in which a
    non-empty answer is submitted.  The write then appends one pair, the
    pending question with that answer, after the pairs the file held, or
    leaves a file that does not parse. *)
Theorem file_changes_only_by_commit (env : run_env)
    (sess : option session_state) (f : medium) :
  let s := default fresh_session sess in
  let r := display_chat env sess f in
  file r.2 ≠ f →
  chat_active s = true ∧ authenticated s = true
  ∧ truthy (current_question s) = true
  ∧ submit env = true ∧ truthy (new_answer env) = true
  ∧ ((disk_write env = WriteCompletes
      ∧ file r.2 = Stored (contents f ++ [mkEntry (current_question s) (new_answer env)]))
     ∨ (disk_write env = WriteFailsPartway ∧ file r.2 = Unparseable)).
Proof.
  destruct (default fresh_session sess) as [ca ms aw cq fi au] eqn:Hs.
  simpl. run_script. rewrite Hs. simpl.
  split_run; try done; intros _; booleans; subst; auto 10.
Qed.

Lemma file_changes_only_by_commit_witness :
  let s := mkSession true [] false "hello" false true in
  let env := mkEnv false None (Some "pw") "" false "Hi there!" true false WriteCompletes in
  let r := display_chat env (Some s) Absent in
  chat_active s = true ∧ authenticated s = true
  ∧ truthy (current_question s) = true
  ∧ submit env = true ∧ truthy (new_answer env) = true
  ∧ ((disk_write env = WriteCompletes
      ∧ file r.2 = Stored (contents Absent ++ [mkEntry (current_question s) (new_answer env)]))
     ∨ (disk_write env = WriteFailsPartway ∧ file r.2 = Unparseable)).
Proof.
  apply (file_changes_only_by_commit
           (mkEnv false None (Some "pw") "" false "Hi there!" true false WriteCompletes)
           (Some (mkSession true [] false "hello" false true)) Absent).
  discriminate.
Defined.

(** X12: A submission with an empty answer is ignored: the form stays on the
    page, nothing is written, and the question stays pending. *)
Theorem empty_answer_is_ignored (env : run_env) (s : session_state) (f : medium) :
  chat_active s = true →
  truthy (current_question s) = true →
  authenticated s = true →
  logout_clicked env = false →
  chat_input env = None →
  new_answer env = "" →
  cancel env = false →
  let r := display_chat env (Some s) f in
  r.1 = Finished ∧ session r.2 = s ∧ file r.2 = f ∧ form_shown r.2 = true.
Proof.
  destruct s as [ca ms aw cq fi au]. simpl.
  intros -> Hcq -> Hl Hp Ha Hc. run_script.
  rewrite Hl, Hp, Ha, Hc. simpl.
  destruct f; simpl; rewrite Hcq; simpl; rewrite andb_false_r; done.
Qed.

Lemma empty_answer_is_ignored_witness :
  let s := mkSession true [] false "hello" false true in
  let r := display_chat
             (mkEnv false None (Some "pw") "" false "" true false WriteCompletes)
             (Some s) Absent in
  r.1 = Finished ∧ session r.2 = s ∧ file r.2 = Absent ∧ form_shown r.2 = true.
Proof.
  apply (empty_answer_is_ignored
           (mkEnv false None (Some "pw") "" false "" true false WriteCompletes)
           (mkSession true [] false "hello" false true) Absent); reflexivity.
Defined.

(** ** Answering a prompt *)

#[local] Arguments find_best_match : simpl never.

Lemma get_answer_first (q : string) (kb : knowledge_base) :
  match get_answer q kb with
  | Some a =>
      ∃ kb1 e kb2,
        kb = kb1 ++ e :: kb2
        ∧ (∀ e', e' ∈ kb1 → lower (question e') ≠ lower q)
        ∧ lower (question e) = lower q ∧ a = answer e
  | None => ∀ e, e ∈ kb → lower (question e) ≠ lower q
  end.
Proof.
  induction kb as [|e0 kb IH]; simpl.
  - by intros e ?%elem_of_nil.
  - destruct (String.eqb_spec (lower (question e0)) (lower q)) as [Heq|Hne].
    + exists [], e0, kb. split; [done|]. split; [|done]. by intros e ?%elem_of_nil.
    + destruct (get_answer q kb) as [a|].
      * destruct IH as (kb1 & e & kb2 & -> & Hno & He & ->).
        exists (e0 :: kb1), e, kb2. split; [done|]. split; [|done].
        intros e' [->|He']%elem_of_cons; [done|by apply Hno].
      * intros e [->|He]%elem_of_cons; [done|by apply IH].
Qed.

(** X7: [get_answer] returns the answer of the first entry whose question is
    the asked one up to casing, and nothing exactly when no entry has such a
    question. *)
Theorem get_answer_is_first_match_up_to_case (q : string) (kb : knowledge_base) :
  (∀ a, get_answer q kb = Some a ↔
        ∃ kb1 e kb2,
          kb = kb1 ++ e :: kb2
          ∧ (∀ e', e' ∈ kb1 → lower (question e') ≠ lower q)
          ∧ lower (question e) = lower q ∧ a = answer e)
  ∧ (get_answer q kb = None ↔ ∀ e, e ∈ kb → lower (question e) ≠ lower q).
Proof.
  pose proof (get_answer_first q kb) as H. split.
  - intros a. split.
    + intros Ha. rewrite Ha in H. done.
    + intros (kb1 & e & kb2 & -> & Hno & He & ->).
      clear H. induction kb1 as [|e1 kb1 IH]; simpl.
      * rewrite He. by rewrite String.eqb_refl.
      * destruct (String.eqb_spec (lower (question e1)) (lower q)) as [Heq|_].
        -- exfalso. apply (Hno e1); [by left|done].
        -- apply IH. intros e' He'. apply Hno. by right.
  - split.
    + intros Hn. by rewrite Hn in H.
    + apply get_answer_None.
Qed.

(** The entry behind a match. *)
Lemma matched_entry (kb : knowledge_base) (p m : string) :
  find_best_match p (question <$> kb) = Some m →
  ∃ e, e ∈ kb ∧ lower (question e) = lower m ∧ get_answer m kb = Some (answer e).
Proof.
  intros Hm.
  pose proof (find_best_match_cases p (question <$> kb)) as H.
  rewrite Hm in H. destruct H as (Hin & _).
  apply list_elem_of_fmap in Hin as (e & -> & He).
  by apply (get_answer_Some _ _ e).
Qed.

(** What a run does with a prompt other than ["quit"]. *)
Lemma prompt_run (env : run_env) (s : session_state) (f : medium) (p : string) :
  chat_active s = true →
  awaiting_answer s = false →
  authenticated s && logout_clicked env = false →
  chat_input env = Some p →
  truthy p = true →
  lower p ≠ "quit" →
  ∃ errs,
    display_chat env (Some s) f =
      (Left Rerun,
       mkWorld
         (match find_best_match p (question <$> contents f) with
          | Some m =>
              mkSession true
                (messages s ++ [mkMessage user (Some p);
                                mkMessage assistant (get_answer m (contents f))])
                false (current_question s) false (authenticated s)
          | None =>
              mkSession true
                (messages s ++ [mkMessage user (Some p);
                                mkMessage assistant (Some unknown_reply)])
                false p false (authenticated s)
          end) f errs false).
Proof.
  destruct s as [ca ms aw cq fi au]. simpl.
  intros -> -> Hl Hp Htp Hq. run_script. rewrite Hl. simpl.
  apply String.eqb_neq in Hq.
  destruct f; simpl; rewrite Hp, Htp; simpl; rewrite Hq; simpl;
    try (match goal with
         | |- context [find_best_match p ?qs] =>
             destruct (find_best_match p qs) as [m|] eqn:Hm
         end; simpl;
         [rewrite (best_match_truthy _ _ _ Hm Htp); simpl|]);
    unfold append_message, set_current_question, set_first_interaction; simpl;
    rewrite <- ?app_assoc; simpl; eauto.
Qed.

(** X8: Every prompt other than ["quit"] gets exactly one reply in its run: the
    stored answer of an entry whose question is the best match up to
    casing, or, when nothing matches, the unknown reply, and then the prompt
    becomes the pending question.  The file is not touched and the run ends
    in a rerun. *)
Theorem prompt_gets_one_reply (env : run_env) (s : session_state) (f : medium)
    (p : string) :
  chat_active s = true →
  awaiting_answer s = false →
  authenticated s && logout_clicked env = false →
  chat_input env = Some p →
  truthy p = true →
  lower p ≠ "quit" →
  let r := display_chat env (Some s) f in
  r.1 = Left Rerun ∧ file r.2 = f ∧ form_shown r.2 = false
  ∧ match find_best_match p (question <$> contents f) with
    | Some m =>
        ∃ e, e ∈ contents f ∧ lower (question e) = lower m
             ∧ messages (session r.2)
               = messages s ++ [mkMessage user (Some p);
                                mkMessage assistant (Some (answer e))]
             ∧ current_question (session r.2) = current_question s
    | None =>
        messages (session r.2)
        = messages s ++ [mkMessage user (Some p);
                         mkMessage assistant (Some unknown_reply)]
        ∧ current_question (session r.2) = p
    end.
Proof.
  intros Hc Ha Hl Hp Htp Hq.
  destruct (prompt_run env s f p) as [errs Hr]; try done.
  cbv zeta. rewrite Hr. simpl. split; [done|]. split; [done|]. split; [done|].
  destruct (find_best_match p _) as [m|] eqn:Hm; simpl; [|done].
  destruct (matched_entry _ _ _ Hm) as (e & He & Hl' & ->). eauto.
Qed.

Lemma prompt_gets_one_reply_witness :
  let s := fresh_session in
  let f := Stored [mkEntry "What is Contec?" "A company."; mkEntry "hello" "Hi there!"] in
  let r := display_chat
             (mkEnv false (Some "helo") None "" false "" false false WriteCompletes)
             (Some s) f in
  r.1 = Left Rerun ∧ file r.2 = f ∧ form_shown r.2 = false
  ∧ match find_best_match "helo" (question <$> contents f) with
    | Some m =>
        ∃ e, e ∈ contents f ∧ lower (question e) = lower m
             ∧ messages (session r.2)
               = messages s ++ [mkMessage user (Some "helo");
                                mkMessage assistant (Some (answer e))]
             ∧ current_question (session r.2) = current_question s
    | None =>
        messages (session r.2)
        = messages s ++ [mkMessage user (Some "helo");
                         mkMessage assistant (Some unknown_reply)]
        ∧ current_question (session r.2) = "helo"
    end.
Proof.
  apply (prompt_gets_one_reply
           (mkEnv false (Some "helo") None "" false "" false false WriteCompletes)
           fresh_session
           (Stored [mkEntry "What is Contec?" "A company."; mkEntry "hello" "Hi there!"])
           "helo"); try reflexivity.
  discriminate.
Defined.

(** ** Sequences of runs *)

#[local] Arguments find_best_match : simpl never.

(** X20: Once a session has ended it stays ended: whatever the later runs are
    given, Logout included, the transcript and the file stay as they were
    when it ended. *)
Theorem ended_is_final (envs : list run_env) (s : session_state) (f : medium) :
  chat_active s = false →
  chat_active (runs envs s f).1 = false
  ∧ messages (runs envs s f).1 = messages s
  ∧ (runs envs s f).2 = f.
Proof.
  revert s f. induction envs as [|env envs IH]; intros s f Hc; simpl; [auto|].
  pose proof (ended_logout env s f Hc) as H. cbv zeta in H.
  set (w := (display_chat env (Some s) f).2) in *.
  destruct H as (Hm & Hp & Hf).
  assert (Hc' : chat_active (session w) = false).
  { unfold phase_of in Hp. destruct (chat_active (session w)); [|done].
    simpl in Hp. by destruct (truthy _). }
  destruct (IH _ (file w) Hc') as (I1 & I2 & I3).
  rewrite I1, I2, I3, Hm, Hf. done.
Qed.

Lemma ended_is_final_witness :
  let s := mkSession false [mkMessage user (Some "quit")] false "" false true in
  let envs :=
    [mkEnv false (Some "hello") None "" false "" false false WriteCompletes;
     mkEnv true None (Some "pw") "pw" true "Hi" true false WriteCompletes] in
  chat_active (runs envs s Absent).1 = false
  ∧ messages (runs envs s Absent).1 = messages s
  ∧ (runs envs s Absent).2 = Absent.
Proof.
  apply (ended_is_final
           [mkEnv false (Some "hello") None "" false "" false false WriteCompletes;
            mkEnv true None (Some "pw") "pw" true "Hi" true false WriteCompletes]
           (mkSession false [mkMessage user (Some "quit")] false "" false true)
           Absent).
  reflexivity.
Defined.

Lemma no_repeats_run (env : run_env) (s : session_state) (f : medium) :
  no_repeats s f →
  no_repeats (session (display_chat env (Some s) f).2)
             (file (display_chat env (Some s) f).2).
Proof.
  destruct s as [ca ms aw cq fi au]. unfold no_repeats. simpl.
  intros [Hnd Hcq]. run_script.
  split_run; simpl in *;
    (split;
     [ first [ exact Hnd | apply NoDup_nil_2 | apply NoDup_singleton
             | rewrite fmap_app; apply NoDup_app; split; [exact Hnd|];
               split; [|apply NoDup_singleton];
               intros x Hx ?%list_elem_of_singleton; subst; by apply Hcq ]
     | first [ exact Hcq | done | (intros _; apply not_elem_of_nil) | (intros _; by apply Hcq)
             | intros ? Hin; apply find_best_match_exact in Hin; congruence ] ]).
Qed.

(** X10: The script never stores a question text twice.  Starting from a file
    without repeated questions and a pending question that is not in the
    file (as in a fresh session), every sequence of runs leaves a file
    without repeated questions: a prompt that is stored verbatim is always
    matched, so it never becomes the pending question. *)
Theorem questions_are_never_stored_twice (envs : list run_env)
    (s : session_state) (f : medium) :
  no_repeats s f → no_repeats (runs envs s f).1 (runs envs s f).2.
Proof.
  revert s f. induction envs as [|env envs IH]; intros s f Hinv; simpl; [done|].
  apply IH. by apply no_repeats_run.
Qed.

Lemma questions_are_never_stored_twice_witness :
  let say p := mkEnv false (Some p) None "" false "" false false WriteCompletes in
  let teach a := mkEnv false None (Some "pw") "pw" true a true false WriteCompletes in
  let envs := [say "hello"; teach "x"; teach "Hi there!"; say "hello"; say "Hello"] in
  no_repeats (runs envs fresh_session Absent).1 (runs envs fresh_session Absent).2.
Proof.
  apply (questions_are_never_stored_twice
           [mkEnv false (Some "hello") None "" false "" false false WriteCompletes;
            mkEnv false None (Some "pw") "pw" true "x" true false WriteCompletes;
            mkEnv false None (Some "pw") "pw" true "Hi there!" true false WriteCompletes;
            mkEnv false (Some "hello") None "" false "" false false WriteCompletes;
            mkEnv false (Some "Hello") None "" false "" false false WriteCompletes]
           fresh_session Absent).
  split; [apply NoDup_nil_2|]. simpl. discriminate.
Defined.

(** ** Teaching, then asking *)

(** X9: When a trainer has committed an answer for the pending question and the
    file held no question equal to it up to casing, asking that question
    again, verbatim, is answered with the committed answer. *)
Theorem taught_answer_is_given (env1 env2 : run_env) (s : session_state)
    (f : medium) :
  chat_active s = true →
  awaiting_answer s = false →
  truthy (current_question s) = true →
  authenticated s = true →
  logout_clicked env1 = false →
  chat_input env1 = None →
  submit env1 = true →
  truthy (new_answer env1) = true →
  disk_write env1 = WriteCompletes →
  logout_clicked env2 = false →
  chat_input env2 = Some (current_question s) →
  lower (current_question s) ≠ "quit" →
  (∀ e, e ∈ contents f → lower (question e) ≠ lower (current_question s)) →
  let w1 := (display_chat env1 (Some s) f).2 in
  let w2 := (display_chat env2 (Some (session w1)) (file w1)).2 in
  messages (session w2)
  = messages s ++ [mkMessage assistant (Some (learned_reply (current_question s)));
                   mkMessage user (Some (current_question s));
                   mkMessage assistant (Some (new_answer env1))]
  ∧ pending_question (session w2) = None.
Proof.
  intros Hc Haw Hq Hau Hl1 Hp1 Hs1 Ha1 Hw1 Hl2 Hp2 Hnq Hnew.
  destruct (training_commit_run env1 s f) as [errs1 Hr1]; try done.
  cbv zeta in Hr1. rewrite Hw1 in Hr1. cbv zeta. rewrite Hr1. simpl.
  set (q := current_question s) in *.
  set (kb' := contents f ++ [mkEntry q (new_answer env1)]).
  destruct (prompt_run env2
              (mkSession true
                 (messages s ++ [mkMessage assistant (Some (learned_reply q))])
                 false "" (first_interaction s) true)
              (Stored kb') q) as [errs2 Hr2]; try done.
  rewrite Hr2. simpl.
  rewrite (find_best_match_exact q (question <$> kb')).
  - simpl. unfold kb'. rewrite get_answer_app, get_answer_None by done.
    simpl. rewrite String.eqb_refl. rewrite <- app_assoc. done.
  - unfold kb'. rewrite fmap_app. apply elem_of_app. right. by left.
Qed.

Lemma taught_answer_is_given_witness :
  let s := mkSession true [mkMessage user (Some "hello")] false "hello" false true in
  let env1 := mkEnv false None (Some "pw") "" false "Hi there!" true false WriteCompletes in
  let env2 := mkEnv false (Some "hello") (Some "pw") "" false "" false false WriteCompletes in
  let f := Stored [mkEntry "What is Contec?" "A company."] in
  let w1 := (display_chat env1 (Some s) f).2 in
  let w2 := (display_chat env2 (Some (session w1)) (file w1)).2 in
  messages (session w2)
  = messages s ++ [mkMessage assistant (Some (learned_reply (current_question s)));
                   mkMessage user (Some (current_question s));
                   mkMessage assistant (Some (new_answer env1))]
  ∧ pending_question (session w2) = None.
Proof.
  apply (taught_answer_is_given
           (mkEnv false None (Some "pw") "" false "Hi there!" true false WriteCompletes)
           (mkEnv false (Some "hello") (Some "pw") "" false "" false false WriteCompletes)
           (mkSession true [mkMessage user (Some "hello")] false "hello" false true)
           (Stored [mkEntry "What is Contec?" "A company."])); try reflexivity.
  - discriminate.
  - intros e [->|[]%elem_of_nil]%elem_of_cons. discriminate.
Defined.

(** ** Invariants of the session *)

#[local] Arguments find_best_match : simpl never.

(** X14: A trainer stays authenticated until Logout is clicked. *)
Theorem authentication_lasts_until_logout (env : run_env) (s : session_state)
    (f : medium) :
  authenticated s = true →
  logout_clicked env = false →
  authenticated (session (display_chat env (Some s) f).2) = true.
Proof.
  destruct s as [ca ms aw cq fi au]. simpl. intros -> Hl. run_script.
  rewrite Hl. simpl. split_run; done.
Qed.

Lemma authentication_lasts_until_logout_witness :
  authenticated
    (session
       (display_chat
          (mkEnv false (Some "quit") None "" false "" false true WriteCompletes)
          (Some (mkSession true [] false "hello" false true)) Absent).2) = true.
Proof.
  apply (authentication_lasts_until_logout
           (mkEnv false (Some "quit") None "" false "" false true WriteCompletes)
           (mkSession true [] false "hello" false true) Absent); reflexivity.
Defined.

Lemma content_run (env : run_env) (s : session_state) (f : medium) :
  Forall (λ m, is_Some (content m)) (messages s) →
  Forall (λ m, is_Some (content m))
    (messages (session (display_chat env (Some s) f).2)).
Proof.
  destruct s as [ca ms aw cq fi au]. simpl. intros Hms. run_script.
  split_run;
    repeat (apply Forall_app; split; [|apply Forall_singleton]);
    try done; simpl;
    match goal with
    | H : find_best_match _ _ = Some _ |- _ =>
        destruct (matched_entry _ _ _ H) as (e & _ & _ & Hg)
    end;
    first [ by rewrite Hg | simpl in Hg; by rewrite Hg ].
Qed.

(** X18: No message of the transcript lacks its content: the answer put in the
    transcript for a matched prompt is always a stored answer. *)
Theorem every_message_has_content (envs : list run_env) (s : session_state)
    (f : medium) :
  Forall (λ m, is_Some (content m)) (messages s) →
  Forall (λ m, is_Some (content m)) (messages (runs envs s f).1).
Proof.
  revert s f. induction envs as [|env envs IH]; intros s f Hs; simpl; [done|].
  apply IH. by apply content_run.
Qed.

Lemma every_message_has_content_witness :
  let say p := mkEnv false (Some p) None "" false "" false false WriteCompletes in
  Forall (λ m, is_Some (content m))
    (messages (runs [say "helo"; say "bye"] fresh_session
                 (Stored [mkEntry "hello" "Hi there!"])).1).
Proof.
  apply (every_message_has_content
           [mkEnv false (Some "helo") None "" false "" false false WriteCompletes;
            mkEnv false (Some "bye") None "" false "" false false WriteCompletes]
           fresh_session (Stored [mkEntry "hello" "Hi there!"])).
  apply Forall_nil_2.
Defined.

Lemma answered_app (ms l : list message) :
  answered ms = true → answered (ms ++ l) = answered l.
Proof.
  induction ms as [|m ms IH]; [done|].
  destruct m as [[] c]; simpl.
  - destruct ms as [|[[] c'] ms]; simpl; try done.
  - apply IH.
Qed.

Lemma answered_run (env : run_env) (s : session_state) (f : medium) :
  awaiting_answer s = false →
  answered (messages s) = true →
  answered (messages (session (display_chat env (Some s) f).2)) = true.
Proof.
  destruct s as [ca ms aw cq fi au]. simpl. intros -> Hms. run_script.
  split_run; rewrite <- ?app_assoc, ?answered_app by done; done.
Qed.

(** X19: Every prompt of the transcript has its reply: in a session the script
    created, each user message is followed by an assistant message, after
    any sequence of runs. *)
Theorem every_prompt_is_answered (envs : list run_env) (s : session_state)
    (f : medium) :
  awaiting_answer s = false →
  answered (messages s) = true →
  answered (messages (runs envs s f).1) = true.
Proof.
  revert s f. induction envs as [|env envs IH]; intros s f Ha Hs; simpl; [done|].
  apply IH.
  - by apply (awaiting_run env (Some s)).
  - by apply answered_run.
Qed.

Lemma every_prompt_is_answered_witness :
  let say p := mkEnv false (Some p) None "" false "" false false WriteCompletes in
  answered (messages (runs [say "helo"; say "bye"; say "Quit"] fresh_session
                        (Stored [mkEntry "hello" "Hi there!"])).1) = true.
Proof.
  apply (every_prompt_is_answered
           [mkEnv false (Some "helo") None "" false "" false false WriteCompletes;
            mkEnv false (Some "bye") None "" false "" false false WriteCompletes;
            mkEnv false (Some "Quit") None "" false "" false false WriteCompletes]
           fresh_session (Stored [mkEntry "hello" "Hi there!"])); reflexivity.
Defined.

Lemma first_interaction_run (env : run_env) (s : session_state) (f : medium) :
  (first_interaction s = true → messages s = [] ∧ current_question s = "") →
  first_interaction (session (display_chat env (Some s) f).2) = true →
  messages (session (display_chat env (Some s) f).2) = []
  ∧ current_question (session (display_chat env (Some s) f).2) = "".
Proof.
  destruct s as [ca ms aw cq fi au]. simpl. intros Hs. run_script.
  split_run; try done; intros ->; destruct (Hs eq_refl) as [-> ->]; done.
Qed.

Lemma first_interaction_runs (envs : list run_env) (s : session_state) (f : medium) :
  (first_interaction s = true → messages s = [] ∧ current_question s = "") →
  first_interaction (runs envs s f).1 = true →
  messages (runs envs s f).1 = [] ∧ current_question (runs envs s f).1 = "".
Proof.
  revert s f. induction envs as [|env envs IH]; intros s f Hs; simpl; [done|].
  apply IH. by apply first_interaction_run.
Qed.

(** X21: In a session the script created, the chat input is centered exactly
    until the first prompt: [first_interaction] is set only while the
    transcript is empty, so the test of the transcript in [input_class]
    never decides. *)
Theorem input_is_centered_until_first_prompt (envs : list run_env) (f : medium) :
  let s := (runs envs fresh_session f).1 in
  (input_class s = "centered-input" ↔ first_interaction s = true)
  ∧ (first_interaction s = true → messages s = []).
Proof.
  cbv zeta.
  pose proof (first_interaction_runs envs fresh_session f (λ _, conj eq_refl eq_refl)) as H.
  split; [|intros Hfi; by destruct (H Hfi)].
  unfold input_class. destruct (first_interaction _); simpl; [|done].
  destruct (H eq_refl) as [-> _]. done.
Qed.

(** ** The matching blocks are matches *)

Lemma block_ok_widen s alo ahi blo bhi i j k :
  range_ok s (alo, ahi, blo, bhi) →
  block_ok s alo ahi blo bhi i j k → block_valid s (i, j, k).
Proof.
  intros (R1 & R2 & R3 & R4) (H1 & H2 & H3 & H4 & H5).
  unfold block_valid, block_ok. repeat split; try lia. done.
Qed.

Lemma blocks_step_valid s r queue blocks :
  b2j_sound s → range_ok s r →
  Forall (block_valid s) blocks →
  Forall (block_valid s) (blocks_step s r queue blocks).2.
Proof.
  intros Hs Hr Hb. destruct r as [[[alo ahi] blo] bhi].
  pose proof Hr as (R1 & R2 & R3 & R4).
  pose proof (find_longest_match_ok s Hs alo ahi blo bhi R1 R3) as Hok.
  unfold blocks_step.
  destruct (find_longest_match s alo ahi blo bhi) as [[i j] k].
  destruct k as [|k]; [done|]. simpl.
  apply Forall_app. split; [done|]. apply Forall_singleton.
  by eapply block_ok_widen.
Qed.

Lemma blocks_loop_valid s fuel :
  b2j_sound s →
  ∀ queue blocks bl,
    Forall (range_ok s) queue → Forall (block_valid s) blocks →
    blocks_loop s fuel queue blocks = Some bl → Forall (block_valid s) bl.
Proof.
  intros Hs. induction fuel as [|fuel IH]; intros queue blocks bl Hq Hb Hrun.
  - destruct queue; simpl in Hrun; [|done]. by injection Hrun as <-.
  - destruct queue as [|r queue]; simpl in Hrun.
    { by injection Hrun as <-. }
    apply Forall_cons in Hq as [Hr Hq].
    pose proof (blocks_step_valid s r queue blocks Hs Hr Hb) as Hv.
    pose proof (blocks_step_ok s r queue blocks Hs Hr Hq) as Hok.
    destruct (blocks_step s r queue blocks) as [q bl0].
    destruct Hok as (Hq' & _). by apply (IH q bl0).
Qed.

Lemma merge_step_valid s (st : Match * list Match) (x : Match) :
  block_valid s st.1 → Forall (block_valid s) st.2 → block_valid s x →
  block_valid s (merge_step st x).1 ∧ Forall (block_valid s) (merge_step st x).2.
Proof.
  destruct st as [[[i1 j1] k1] na], x as [[i2 j2] k2]. simpl.
  intros V1 Vna V2.
  destruct (bool_decide (i1 + k1 = i2)) eqn:Ei; simpl;
    [destruct (bool_decide (j1 + k1 = j2)) eqn:Ej; simpl|].
  - apply bool_decide_eq_true in Ei, Ej. subst i2 j2. split; [|done].
    destruct V1 as (A1 & A2 & A3 & A4 & A5), V2 as (B1 & B2 & B3 & B4 & B5).
    repeat split; try lia. intros t Ht.
    destruct (decide (t < k1)) as [Hlt|Hge]; [by apply A5|].
    pose proof (B5 (t - k1) ltac:(lia)) as Hb. same_item Hb.
  - split; [done|]. destruct k1; [done|].
    apply Forall_app. split; [done|]. by apply Forall_singleton.
  - split; [done|]. destruct k1; [done|].
    apply Forall_app. split; [done|]. by apply Forall_singleton.
Qed.

Lemma merge_fold_valid s (l : list Match) :
  ∀ st, block_valid s st.1 → Forall (block_valid s) st.2 →
        Forall (block_valid s) l →
        block_valid s (foldl merge_step st l).1
        ∧ Forall (block_valid s) (foldl merge_step st l).2.
Proof.
  induction l as [|x l IH]; intros st V1 V2 Vl; simpl; [done|].
  apply Forall_cons in Vl as [Vx Vl].
  destruct (merge_step_valid s st x V1 V2 Vx) as [W1 W2]. by apply IH.
Qed.

Lemma get_matching_blocks_valid s :
  b2j_sound s → Forall (block_valid s) (get_matching_blocks s).
Proof.
  intros Hs. unfold get_matching_blocks.
  assert (Hq : Forall (range_ok s) [(0, length (sm_a s), 0, length (sm_b s))]).
  { apply Forall_cons. split; [simpl; lia|done]. }
  destruct (blocks_loop_ok s (blocks_fuel s) Hs
              [(0, length (sm_a s), 0, length (sm_b s))] []) as (bl & Hrun & _).
  { done. }
  { unfold blocks_fuel. simpl. lia. }
  rewrite Hrun. simpl.
  pose proof (blocks_loop_valid s _ Hs _ _ _ Hq (Forall_nil_2 _) Hrun) as Hbl.
  assert (Hsorted : Forall (block_valid s) (merge_sort match_le bl)).
  { rewrite (merge_sort_Permutation match_le bl). done. }
  destruct (merge_fold_valid s (merge_sort match_le bl) ((0, 0, 0), []))
    as [W1 W2]; try done.
  { simpl. unfold block_ok. repeat split; lia. }
  destruct (foldl merge_step _ _) as [[[i1 j1] k1] na]. simpl in *.
  apply Forall_app. split.
  - destruct k1; [done|]. apply Forall_app. split; [done|]. by apply Forall_singleton.
  - apply Forall_singleton. simpl. unfold block_ok. repeat split; lia.
Qed.

(** X6: Every block [(i, j, k)] that [get_matching_blocks] returns for a
    candidate and a word lies in the two strings and names equal slices,
    [a[i:i+k] == b[j:j+k]]; the list ends with the block of size 0 at the
    two lengths. *)
Theorem matching_blocks_are_matches (word x : string) :
  let s := matcher word x in
  (∀ i j k, (i, j, k) ∈ get_matching_blocks s →
            i + k ≤ length (sm_a s) ∧ j + k ≤ length (sm_b s)
            ∧ slice (sm_a s) i (i + k) = slice (sm_b s) j (j + k))
  ∧ last (get_matching_blocks s) = Some (length (sm_a s), length (sm_b s), 0).
Proof.
  cbv zeta. split.
  - intros i j k Hin.
    pose proof (get_matching_blocks_valid _ (matcher_sound word x)) as Hv.
    rewrite Forall_forall in Hv. specialize (Hv _ Hin).
    unfold block_valid in Hv. pose proof Hv as (_ & H2 & _ & H4 & _).
    split; [done|]. split; [done|].
    apply (block_slices _ 0 (length (sm_a (matcher word x))) 0
             (length (sm_b (matcher word x)))); [lia|lia|exact Hv].
  - unfold get_matching_blocks.
    destruct (foldl merge_step _ _) as [[[i1 j1] k1] na]. by rewrite last_snoc.
Qed.
